(** * Ultimate Tic-Tac-Toe: the rule engine of [src/App.js]

    A shallow embedding of the game logic of [App.js] (the functions
    [isVictory], [isComplete], [allBoardsComplete], [boardsToCells],
    [isValidMove], [setup], the move [markCell], the hook [endGameIf] and
    the move enumerator [enumerate]) and the properties of it that the
    specification states.

    JavaScript arrays are lists read with [!!]; reading past the end gives
    [undefined], writing past the end extends the array.  The move
    [markCell] assigns to fields of [G]; it is written in a small state and
    exception monad, one bind per statement of the source. *)

From stdpp Require Import base decidable option list sorting.
From Stdlib Require Import Lia.

Set Default Proof Using "Type".

(** ** Values *)

(** [ctx.currentPlayer]: the two players, ['0'] and ['1']. *)
Inductive Player := P0 | P1.

#[global] Instance Player_eq_dec : EqDecision Player.
Proof. solve_decision. Defined.

Definition other (p : Player) : Player :=
  match p with P0 => P1 | P1 => P0 end.

(** What a cell, or the [winner] field of a board, can hold: [null] (the
    EMPTY mark), a player, or [undefined], which is what JavaScript reads
    at an index the array does not have. *)
Inductive jsval := Undefined | Null | Mark (p : Player).

#[global] Instance jsval_eq_dec : EqDecision jsval.
Proof. solve_decision. Defined.

(** [a === b] *)
Definition strict_eq (a b : jsval) : bool := bool_decide (a = b).
(** [a !== null] *)
Definition not_null (a : jsval) : bool := negb (bool_decide (a = Null)).
(** [a == null]: loose equality, true of [null] and of [undefined]. *)
Definition loose_null (a : jsval) : bool :=
  match a with Undefined | Null => true | Mark _ => false end.

(** [cells[i]] *)
Definition js_get (cells : list jsval) (i : nat) : jsval :=
  default Undefined (cells !! i).

(** [cells[i] = v]: in range the slot is overwritten; past the end the
    array grows to length [i + 1] and the slots in between are holes, which
    read as [undefined] and which [filter] skips (as it finds no [null]
    there, [Undefined] stands for them). *)
Definition js_set (cells : list jsval) (i : nat) (v : jsval) : list jsval :=
  if decide (i < length cells) then <[i:=v]> cells
  else cells ++ replicate (i - length cells) Undefined ++ [v].

(** ** The pure helpers, lines 10-29 *)

Definition line (cells : list jsval) (a b c : nat) : bool :=
  not_null (js_get cells a)
  && (strict_eq (js_get cells a) (js_get cells b)
      && strict_eq (js_get cells a) (js_get cells c)).

Definition isVictory (cells : list jsval) : bool :=
  (* horizontal victory *)
  line cells 0 1 2 || line cells 3 4 5 || line cells 6 7 8 ||
  (* vertical victory *)
  line cells 0 3 6 || line cells 1 4 7 || line cells 2 5 8 ||
  (* diagonal victory *)
  line cells 0 4 8 || line cells 2 4 6.

Definition isComplete (cells : list jsval) : bool :=
  bool_decide (length (filter (λ c, c = Null) cells) = 0).

(** A local board: [{cells, complete, winner}]. *)
Record Board := mkBoard {
  cells : list jsval;
  complete : bool;
  winner : jsval;
}.

Definition allBoardsComplete (boards : list Board) : bool :=
  bool_decide (length (filter (λ b, complete b = false) boards) = 0).

Definition boardsToCells (boards : list Board) : list jsval :=
  winner <$> boards.

(** The game state [G]: [nextBoardId] is [null] ([None], any board) or a
    board index. *)
Record GameState := mkG {
  boards : list Board;
  nextBoardId : option nat;
}.

(** What a game-over value is: [{winner: p}] or [{draw: true}]. *)
Inductive GameOver := Winner (p : Player) | Draw.

(** The part of the framework's [ctx] that the game reads:
    [ctx.gameover] is [undefined] ([None]) while the game is going on. *)
Record Ctx := mkCtx {
  currentPlayer : Player;
  gameover : option GameOver;
}.

(** ** Results: a value, or a thrown [TypeError] *)

Inductive exn := TypeError.

Inductive outcome (A : Type) :=
| Ret (a : A)
| Throw (e : exn).
Arguments Ret {A} a.
Arguments Throw {A} e.

#[global] Instance exn_eq_dec : EqDecision exn.
Proof. solve_decision. Defined.
#[global] Instance outcome_eq_dec `{EqDecision A} : EqDecision (outcome A).
Proof. solve_decision. Defined.

(** ** isValidMove, lines 31-34 *)

(** [G.boards[boardId].complete] throws a [TypeError] when [G.boards] has no
    index [boardId]; [&&] does not evaluate it when its left operand is
    false. *)
Definition isValidMove (G : GameState) (boardId cellId : nat) : outcome bool :=
  if bool_decide (Some boardId = nextBoardId G)
     || bool_decide (nextBoardId G = None)
  then
    match boards G !! boardId with
    | None => Throw TypeError
    | Some b =>
        if negb (complete b)
        then Ret (loose_null (js_get (cells b) cellId))
        else Ret false
    end
  else Ret false.

(** ** setup, lines 37-46 *)

Definition emptyBoard : Board :=
  {| cells := replicate 9 Null; complete := false; winner := Null |}.

Definition setup : GameState :=
  {| boards := replicate 9 emptyBoard; nextBoardId := None |}.

(** Every board of [setup] is an object of its own with a cell array of its
    own ([map] builds them one by one), so no two boards alias: a list of
    records is a faithful store. *)

(** ** Statements that assign to [G] *)

(** A piece of code that runs on the state [G], may assign to it, and
    returns a value or throws; the state is given back in both cases, as
    the assignments made before a [throw] stay made. *)
Definition Move (A : Type) : Type := GameState → GameState * outcome A.

Definition pure {A} (a : A) : Move A := λ G, (G, Ret a).

Definition bind {A B} (m : Move A) (k : A → Move B) : Move B :=
  λ G, match m G with
       | (G', Ret a) => k a G'
       | (G', Throw e) => (G', Throw e)
       end.

Notation "'let*' x ':=' m 'in' k" := (bind m (λ x, k))
  (at level 10, x name, m at level 100, k at level 200,
   format "'[v' 'let*'  x  ':='  m  'in' '/' k ']'").
Notation "m ';;' k" := (bind m (λ _, k))
  (at level 100, k at level 200, right associativity).

(** Evaluate an expression that only reads [G]. *)
Definition eval {A} (e : GameState → outcome A) : Move A := λ G, (G, e G).

(** [G.boards[i]], about to be dereferenced. *)
Definition boardAt (i : nat) : Move Board :=
  λ G, match boards G !! i with
       | Some b => (G, Ret b)
       | None => (G, Throw TypeError)
       end.

(** [G.boards[i].<field> = ...], as a change [f] of the board. *)
Definition assignBoard (i : nat) (f : Board → Board) : Move unit :=
  let* b := boardAt i in
  λ G, ({| boards := <[i:=f b]> (boards G); nextBoardId := nextBoardId G |},
        Ret tt).

(** [G.nextBoardId = v] *)
Definition assignNextBoardId (v : option nat) : Move unit :=
  λ G, ({| boards := boards G; nextBoardId := v |}, Ret tt).

Definition set_cell (cellId : nat) (v : jsval) (b : Board) : Board :=
  {| cells := js_set (cells b) cellId v;
     complete := complete b; winner := winner b |}.
Definition set_complete (v : bool) (b : Board) : Board :=
  {| cells := cells b; complete := v; winner := winner b |}.
Definition set_winner (v : jsval) (b : Board) : Board :=
  {| cells := cells b; complete := complete b; winner := v |}.

(** ** markCell, lines 49-66 *)

(** What the move returns: the sentinel [INVALID_MOVE], or nothing after it
    has called [ctx.events.endTurn()]. *)
Inductive MoveRet := INVALID_MOVE | EndTurn.

Definition markCell (G : GameState) (ctx : Ctx) (boardId cellId : nat)
  : GameState * outcome MoveRet :=
  (let* valid := eval (λ G, isValidMove G boardId cellId) in
   if negb valid then pure INVALID_MOVE else
   assignBoard boardId (set_cell cellId (Mark (currentPlayer ctx)));;
   let* b := boardAt boardId in
   (if isVictory (cells b) then
      assignBoard boardId (set_complete true);;
      assignBoard boardId (set_winner (Mark (currentPlayer ctx)))
    else if isComplete (cells b) then
      assignBoard boardId (set_complete true)
    else pure tt);;
   let* next := boardAt cellId in
   assignNextBoardId (if complete next then None else Some cellId);;
   pure EndTurn) G.

(** ** endGameIf, lines 70-78 *)

Definition endGameIf (G : GameState) (ctx : Ctx) : option GameOver :=
  let cells := boardsToCells (boards G) in
  if isVictory cells then Some (Winner (currentPlayer ctx))
  else if isComplete cells || allBoardsComplete (boards G) then Some Draw
  else None.

(** ** enumerate, lines 192-202 *)

(** The inner loop, over the cell ids still to visit; [moves.push] appends.
    A move [{move: 'markCell', args: [boardId, cellId]}] is kept as its
    arguments. *)
Fixpoint enumerate_cells (G : GameState) (boardId : nat) (cellIds : list nat)
    (moves : list (nat * nat)) : outcome (list (nat * nat)) :=
  match cellIds with
  | [] => Ret moves
  | cellId :: rest =>
      match isValidMove G boardId cellId with
      | Throw e => Throw e
      | Ret valid =>
          enumerate_cells G boardId rest
            (if valid then moves ++ [(boardId, cellId)] else moves)
      end
  end.

Fixpoint enumerate_boards (G : GameState) (boardIds : list nat)
    (moves : list (nat * nat)) : outcome (list (nat * nat)) :=
  match boardIds with
  | [] => Ret moves
  | boardId :: rest =>
      match enumerate_cells G boardId (seq 0 9) moves with
      | Throw e => Throw e
      | Ret moves' => enumerate_boards G rest moves'
      end
  end.

Definition enumerate (G : GameState) (ctx : Ctx) : outcome (list (nat * nat)) :=
  enumerate_boards G (seq 0 9) [].

(** ** The game as the framework runs it *)

(** The state of a match: the game state [G] and the framework's [ctx]. *)
Record State := mkState {
  stG : GameState;
  stCtx : Ctx;
}.

Inductive MoveStatus := Applied | IllegalMoveError | Crashed (e : exn).

(** Modelled from the spec: the first [ctx] of the framework, with player 0
    to move and no outcome yet, next to the [G] of [setup]. *)
Definition initial : State :=
  {| stG := setup; stCtx := {| currentPlayer := P0; gameover := None |} |}.

(** Modelled from the spec: the dispatch of a move by the host framework
    (boardgame.io), which is not part of the source.  After the end of the
    game no move is accepted; otherwise [markCell] runs on [G], and when it
    has asked for the end of the turn, [endGameIf] is evaluated on the new
    [G] with the player who has just moved: its result, if any, becomes the
    outcome, else the turn passes to the other player.  The state after a
    refused move is the one [markCell] has left.  A move that throws is
    not applied in part (section 7: a move that fails leaves the prior
    state unchanged): the state stays as it was before the call, and the
    error, which is not an [IllegalMoveError], is passed on. *)
Definition applyMove (st : State) (boardId cellId : nat) : State * MoveStatus :=
  match gameover (stCtx st) with
  | Some _ => (st, IllegalMoveError)
  | None =>
      match markCell (stG st) (stCtx st) boardId cellId with
      | (_, Throw e) => (st, Crashed e)
      | (G', Ret INVALID_MOVE) =>
          ({| stG := G'; stCtx := stCtx st |}, IllegalMoveError)
      | (G', Ret EndTurn) =>
          match endGameIf G' (stCtx st) with
          | Some over =>
              ({| stG := G';
                  stCtx := {| currentPlayer := currentPlayer (stCtx st);
                              gameover := Some over |} |}, Applied)
          | None =>
              ({| stG := G';
                  stCtx := {| currentPlayer := other (currentPlayer (stCtx st));
                              gameover := None |} |}, Applied)
          end
      end
  end.

(** Playing a sequence of moves from a state; [None] as soon as one of
    them is not applied. *)
Fixpoint play (st : State) (moves : list (nat * nat)) : option State :=
  match moves with
  | [] => Some st
  | (boardId, cellId) :: rest =>
      match applyMove st boardId cellId with
      | (st', Applied) => play st' rest
      | _ => None
      end
  end.

(** The states of a match: those the legal moves lead to from [initial]. *)
Inductive reachable : State → Prop :=
| reachable_initial : reachable initial
| reachable_move st boardId cellId st' :
    reachable st →
    applyMove st boardId cellId = (st', Applied) →
    reachable st'.

(** ** The specification's vocabulary *)

(** The eight lines of a 3x3 grid: rows, columns, diagonals. *)
Definition lines : list (nat * nat * nat) :=
  [(0, 1, 2); (3, 4, 5); (6, 7, 8);
   (0, 3, 6); (1, 4, 7); (2, 5, 8);
   (0, 4, 8); (2, 4, 6)].

(** Three positions hold the same non-EMPTY mark. *)
Definition same_mark (a b c : option jsval) : bool :=
  match a, b, c with
  | Some (Mark p), Some (Mark q), Some (Mark r) =>
      bool_decide (p = q) && bool_decide (p = r)
  | _, _, _ => false
  end.

(** [hasWinningLine], in the words of the specification: one of the eight
    triples holds three times the same non-EMPTY mark. *)
Definition hasWinningLine (marks : list jsval) : bool :=
  existsb (λ '(a, b, c), same_mark (marks !! a) (marks !! b) (marks !! c))
          lines.

Definition is_mark (v : jsval) : bool :=
  match v with Mark _ => true | _ => false end.

(** All the cells are non-EMPTY. *)
Definition allCellsFilled (marks : list jsval) : bool := forallb is_mark marks.

(** [checkGlobalOutcome], in the words of the specification, for the boards
    after a move of player [p]. *)
Definition checkGlobalOutcome (p : Player) (bs : list Board) : option GameOver :=
  if hasWinningLine (winner <$> bs) then Some (Winner p)
  else if forallb complete bs then Some Draw
  else None.

(** The board as [markCell] leaves it after player [p] has marked
    [cellId]: lines 54-61 on one board. *)
Definition markedBoard (p : Player) (cellId : nat) (b : Board) : Board :=
  let cells' := js_set (cells b) cellId (Mark p) in
  if isVictory cells' then
    {| cells := cells'; complete := true; winner := Mark p |}
  else if isComplete cells' then
    {| cells := cells'; complete := true; winner := winner b |}
  else
    {| cells := cells'; complete := complete b; winner := winner b |}.

(** The data model: nine boards of nine cells, every cell and every winner
    a mark or EMPTY, and a board that has a winner is complete. *)
Record valid_board (b : Board) : Prop := {
  vb_length : length (cells b) = 9;
  vb_cells : Forall (λ v, v ≠ Undefined) (cells b);
  vb_winner : winner b ≠ Undefined;
  vb_complete : winner b ≠ Null → complete b = true;
}.

Definition valid_state (G : GameState) : Prop :=
  length (boards G) = 9 ∧ Forall valid_board (boards G).

(** A move is legal, in the words of the specification (section 4.1). *)
Definition legal (st : State) (boardId cellId : nat) : Prop :=
  gameover (stCtx st) = None
  ∧ boardId < 9
  ∧ cellId < 9
  ∧ (∃ b, boards (stG st) !! boardId = Some b
          ∧ complete b = false
          ∧ cells b !! cellId = Some Null)
  ∧ (nextBoardId (stG st) = None ∨ nextBoardId (stG st) = Some boardId).

(** The order in which moves are listed: by board, then by cell. *)
Definition move_lt (m1 m2 : nat * nat) : Prop :=
  m1.1 < m2.1 ∨ (m1.1 = m2.1 ∧ m1.2 < m2.2).

#[global] Instance move_lt_dec : RelDecision move_lt.
Proof. intros m1 m2. unfold move_lt. apply _. Defined.

(** All the pairs the two loops of [enumerate] visit, in the order of the
    visit. *)
Definition allMoves : list (nat * nat) :=
  b ← seq 0 9; pair b <$> seq 0 9.

(** ** Two matches *)

(** Player 0 takes the bottom row of boards 0 and 1 and two cells of the
    bottom row of board 2; player 1 is sent to boards 6, 7 and 8. *)
Definition almostWonGame : list (nat * nat) :=
  [(0, 6); (6, 0); (0, 7); (7, 0); (0, 8); (8, 1);
   (1, 6); (6, 1); (1, 7); (7, 1); (1, 8); (8, 2);
   (2, 6); (6, 2); (2, 7); (7, 2)].

Definition almostWonState : State :=
  Eval vm_compute in default initial (play initial almostWonGame).

(** Player 0 then takes board 2 and, with boards 0, 1 and 2, the top row
    of the meta-grid. *)
Definition wonGame : list (nat * nat) := almostWonGame ++ [(2, 8)].

Definition wonState : State :=
  Eval vm_compute in default initial (play initial wonGame).

(** Player 0 takes the diagonal of board 0; the last mark, in cell 0, sends
    to board 0 itself. *)
Definition selfSendGame : list (nat * nat) :=
  [(0, 4); (4, 0); (0, 8); (8, 0)].

Definition selfSendState : State :=
  Eval vm_compute in default initial (play initial selfSendGame).

Definition selfSentState : State :=
  Eval vm_compute in default initial (play initial (selfSendGame ++ [(0, 0)])).

(** Board 4 is filled without a line: every third move falls in it. *)
Definition drawnBoardGame : list (nat * nat) :=
  [(4, 4); (4, 1); (1, 0); (0, 4); (4, 0); (0, 1); (1, 4); (4, 3);
   (3, 2); (2, 4); (4, 2); (2, 3); (3, 4); (4, 6); (6, 5); (5, 4);
   (4, 5); (5, 6); (6, 4); (4, 8); (8, 7); (7, 4); (4, 7)].

Definition drawnBoardState : State :=
  Eval vm_compute in default initial (play initial drawnBoardGame).

(** ** The board component, lines 131-185 *)

(** The [isValidNext] property that [UltimateTicTacToeBoard] gives to the
    board [boardId] (lines 164-168): it decides the colour of its border. *)
Definition boardIsValidNext (G : GameState) (ctx : Ctx) (boardId : nat)
    (board : Board) : bool :=
  bool_decide (gameover ctx = None)
  && negb (complete board)
  && (bool_decide (Some boardId = nextBoardId G)
      || bool_decide (nextBoardId G = None)).

(** The [isValidNext] property that [LocalBoard] gives to a cell (line 138):
    it decides the cursor and the colour under the pointer. *)
Definition cellIsValidNext (isValidNext : bool) (cell : jsval) : bool :=
  isValidNext && strict_eq cell Null.

(** ** Counting and owning *)

(** Player [p] holds one of the eight lines. *)
Definition hasLineOf (p : Player) (marks : list jsval) : bool :=
  existsb (λ '(a, b, c),
             bool_decide (marks !! a = Some (Mark p))
             && bool_decide (marks !! b = Some (Mark p))
             && bool_decide (marks !! c = Some (Mark p)))
          lines.

(** The marks on a board, and on all boards. *)
Definition countMarks (marks : list jsval) : nat :=
  length (filter (λ v, is_mark v = true) marks).

Definition totalMarks (bs : list Board) : nat :=
  sum_list (countMarks ∘ cells <$> bs).

(** What the moves keep true of a board beyond the data model: it is
    complete exactly when its cells hold a line or are all taken, and its
    winner is the player, if any, who holds a line. *)
Record played_board (b : Board) : Prop := {
  pb_valid : valid_board b;
  pb_complete : complete b = isVictory (cells b) || isComplete (cells b);
  pb_winner : ∀ p, winner b = Mark p ↔ hasLineOf p (cells b) = true;
}.

(** ... and of the state: the board a player is sent to is not complete. *)
Definition played_state (G : GameState) : Prop :=
  length (boards G) = 9
  ∧ Forall played_board (boards G)
  ∧ ∀ n, nextBoardId G = Some n →
         ∃ b, boards G !! n = Some b ∧ complete b = false.

(** The outcome that the framework holds agrees with the boards. *)
Definition outcome_matches (st : State) : Prop :=
  match gameover (stCtx st) with
  | None =>
      isVictory (boardsToCells (boards (stG st))) = false
      ∧ allBoardsComplete (boards (stG st)) = false
  | Some (Winner p) => hasLineOf p (boardsToCells (boards (stG st))) = true
  | Some Draw =>
      isVictory (boardsToCells (boards (stG st))) = false
      ∧ allBoardsComplete (boards (stG st)) = true
  end.

(** * Properties *)

(** ** Arrays *)

Lemma js_get_lookup (l : list jsval) i v : l !! i = Some v → js_get l i = v.
Proof. unfold js_get. by intros ->. Qed.

Lemma js_get_ge (l : list jsval) i : length l ≤ i → js_get l i = Undefined.
Proof. intros H. unfold js_get. by rewrite lookup_ge_None_2. Qed.

Lemma js_set_in_range (l : list jsval) i v :
  i < length l → js_set l i v = <[i:=v]> l.
Proof. intros H. unfold js_set. by rewrite decide_True. Qed.

Lemma js_get_set_eq (l : list jsval) i v : js_get (js_set l i v) i = v.
Proof.
  unfold js_get, js_set. case_decide as Hi.
  - by rewrite list_lookup_insert_eq.
  - rewrite lookup_app_r by lia. rewrite lookup_app_r; rewrite length_replicate.
    + by replace (i - length l - (i - length l)) with 0 by lia.
    + lia.
Qed.

Lemma js_get_set_ne (l : list jsval) i j v :
  i ≠ j → js_get (js_set l i v) j = js_get l j.
Proof.
  intros Hne. unfold js_get, js_set. case_decide as Hi.
  - by rewrite list_lookup_insert_ne.
  - destruct (decide (j < length l)) as [Hj|Hj].
    + by rewrite lookup_app_l.
    + rewrite (lookup_ge_None_2 l j) by lia. rewrite lookup_app_r by lia.
      destruct (decide (j - length l < i - length l)) as [Hk|Hk].
      * rewrite lookup_app_l by (rewrite length_replicate; lia).
        by rewrite lookup_replicate_2.
      * rewrite (lookup_ge_None_2 _ (j - length l)); [done|].
        rewrite length_app, length_replicate. simpl. lia.
Qed.

(** Counting with [filter]: no element passes the test. *)
Lemma filter_length_0 {A} (P : A → Prop) `{!∀ x, Decision (P x)} (l : list A) :
  length (filter P l) = 0 ↔ Forall (λ x, ¬ P x) l.
Proof.
  induction l as [|x l IH]; simpl.
  - split; [constructor | done].
  - rewrite filter_cons. destruct (decide (P x)) as [Hx|Hx]; simpl.
    + split; [lia | by inversion 1].
    + rewrite IH. split; [by constructor | by inversion 1].
Qed.

Lemma isComplete_true (l : list jsval) :
  isComplete l = true ↔ Forall (λ v, v ≠ Null) l.
Proof. unfold isComplete. by rewrite bool_decide_eq_true, filter_length_0. Qed.

Lemma allBoardsComplete_true (bs : list Board) :
  allBoardsComplete bs = true ↔ Forall (λ b, complete b = true) bs.
Proof.
  unfold allBoardsComplete. rewrite bool_decide_eq_true, filter_length_0.
  apply Forall_proper; [|done]. intros b. by destruct (complete b).
Qed.

Lemma forallb_Forall {A} (f : A → bool) (l : list A) :
  forallb f l = true ↔ Forall (λ x, f x = true) l.
Proof.
  induction l as [|x l IH]; simpl.
  - split; [constructor | done].
  - rewrite andb_true_iff, IH. split; [intros []; by constructor | by inversion 1].
Qed.

(** The source's test of all boards is the specification's. *)
Lemma allBoardsComplete_forallb (bs : list Board) :
  allBoardsComplete bs = forallb complete bs.
Proof.
  apply eq_true_iff_eq. by rewrite allBoardsComplete_true, forallb_Forall.
Qed.

Lemma isComplete_allCellsFilled (l : list jsval) :
  Forall (λ v, v ≠ Undefined) l → isComplete l = allCellsFilled l.
Proof.
  intros Hl. apply eq_true_iff_eq. unfold allCellsFilled.
  rewrite isComplete_true, forallb_Forall. rewrite !Forall_forall in *.
  split; intros H v Hv; specialize (H v Hv); specialize (Hl v Hv);
    by destruct v.
Qed.

(** One line of [isVictory] is one triple of the specification. *)
Lemma line_same_mark (l : list jsval) a b c :
  Forall (λ v, v ≠ Undefined) l → a < length l →
  line l a b c = same_mark (l !! a) (l !! b) (l !! c).
Proof.
  intros Hl Ha. unfold line, js_get, not_null, strict_eq.
  destruct (lookup_lt_is_Some_2 l a Ha) as [x Hx]. rewrite Hx. simpl.
  assert (x ≠ Undefined) as Hxu.
  { rewrite Forall_forall in Hl. apply Hl. by eapply list_elem_of_lookup_2. }
  destruct x as [| |p]; [done|done|]. simpl.
  destruct (l !! b) as [[| |q]|], (l !! c) as [[| |r]|]; simpl;
    repeat case_bool_decide; simpl; congruence.
Qed.

Lemma isVictory_hasWinningLine (l : list jsval) :
  length l = 9 → Forall (λ v, v ≠ Undefined) l →
  isVictory l = hasWinningLine l.
Proof.
  intros Hlen Hl. unfold isVictory, hasWinningLine, lines.
  rewrite !(line_same_mark l) by (done || lia). simpl.
  by rewrite orb_false_r, !orb_assoc.
Qed.

(** ** What markCell does, in one equation *)

(** [markCell] refuses without assigning, or throws before assigning, or
    replaces board [boardId] by [markedBoard] and then looks at board
    [cellId] of the new boards. *)
Lemma markCell_unfold G ctx boardId cellId :
  markCell G ctx boardId cellId =
  match isValidMove G boardId cellId with
  | Throw e => (G, Throw e)
  | Ret false => (G, Ret INVALID_MOVE)
  | Ret true =>
      match boards G !! boardId with
      | None => (G, Throw TypeError)
      | Some b =>
          let bs' := <[boardId := markedBoard (currentPlayer ctx) cellId b]>
                       (boards G) in
          match bs' !! cellId with
          | None => ({| boards := bs'; nextBoardId := nextBoardId G |},
                     Throw TypeError)
          | Some next =>
              ({| boards := bs';
                  nextBoardId := if complete next then None else Some cellId |},
               Ret EndTurn)
          end
      end
  end.
Proof.
  unfold markCell, bind at 1, eval.
  destruct (isValidMove G boardId cellId) as [[|]|e]; simpl; [|done|done].
  unfold assignBoard, boardAt, bind, pure, assignNextBoardId. simpl.
  destruct (boards G !! boardId) as [b|] eqn:Hb; simpl; [|done].
  assert (boardId < length (boards G)) as Hlt by by eapply lookup_lt_Some.
  rewrite list_lookup_insert_eq by done. unfold markedBoard. simpl.
  destruct (isVictory (js_set (cells b) cellId (Mark (currentPlayer ctx))));
    simpl.
  - repeat (rewrite list_lookup_insert_eq by (by rewrite ?length_insert);
            simpl; rewrite ?list_insert_insert_eq).
    by destruct (_ !! cellId).
  - destruct (isComplete (js_set (cells b) cellId (Mark (currentPlayer ctx))));
      simpl.
    + repeat (rewrite list_lookup_insert_eq by (by rewrite ?length_insert);
              simpl; rewrite ?list_insert_insert_eq).
      by destruct (_ !! cellId).
    + by destruct (_ !! cellId).
Qed.

(** A move that [markCell] carries out. *)
Lemma markCell_EndTurn G ctx boardId cellId G' :
  markCell G ctx boardId cellId = (G', Ret EndTurn) →
  ∃ b next,
    isValidMove G boardId cellId = Ret true
    ∧ boards G !! boardId = Some b
    ∧ boards G' = <[boardId := markedBoard (currentPlayer ctx) cellId b]>
                    (boards G)
    ∧ boards G' !! cellId = Some next
    ∧ nextBoardId G' = (if complete next then None else Some cellId).
Proof.
  rewrite markCell_unfold.
  destruct (isValidMove G boardId cellId) as [[|]|e]; [|done|done].
  destruct (boards G !! boardId) as [b|]; [|done]. simpl.
  destruct (_ !! cellId) as [next|] eqn:Hnext; [|done].
  intros [= <-]. exists b, next. simpl. by rewrite Hnext.
Qed.

(** A move that [markCell] refuses. *)
Lemma markCell_invalid G ctx boardId cellId :
  isValidMove G boardId cellId = Ret false →
  markCell G ctx boardId cellId = (G, Ret INVALID_MOVE).
Proof. intros H. by rewrite markCell_unfold, H. Qed.

(** What [isValidMove] accepts. *)
Lemma isValidMove_true G boardId cellId :
  isValidMove G boardId cellId = Ret true ↔
  ∃ b, boards G !! boardId = Some b
       ∧ complete b = false
       ∧ loose_null (js_get (cells b) cellId) = true
       ∧ (nextBoardId G = None ∨ nextBoardId G = Some boardId).
Proof.
  unfold isValidMove. split.
  - destruct (_ || _) eqn:Hnext; [|done].
    destruct (boards G !! boardId) as [b|]; [|done].
    destruct (complete b) eqn:Hc; simpl; [done|]. intros [= Hcell].
    exists b. repeat split; [done..|].
    apply orb_true_iff in Hnext as [H|H]; apply bool_decide_eq_true in H; auto.
  - intros (b & Hb & Hc & Hcell & Hnext).
    assert (bool_decide (Some boardId = nextBoardId G)
            || bool_decide (nextBoardId G = None) = true) as ->.
    { apply orb_true_iff.
      destruct Hnext as [H|H]; [right|left]; by apply bool_decide_eq_true. }
    rewrite Hb, Hc. simpl. by rewrite Hcell.
Qed.

(** On a board that exists, [isValidMove] does not throw. *)
Lemma isValidMove_returns G boardId cellId :
  boardId < length (boards G) → ∃ v, isValidMove G boardId cellId = Ret v.
Proof.
  intros [b Hb]%lookup_lt_is_Some_2. unfold isValidMove. rewrite Hb.
  repeat case_match; eauto.
Qed.

(** On a state of the data model, a cell in 0-8 that [isValidMove] accepts
    is an EMPTY cell of a board that is not complete. *)
Lemma accepted_cell_null G boardId cellId :
  valid_state G → cellId < 9 → isValidMove G boardId cellId = Ret true →
  ∃ b, boards G !! boardId = Some b ∧ complete b = false
       ∧ cells b !! cellId = Some Null.
Proof.
  intros [_ Hall] Hc (b & Hb & Hopen & Hcell & _)%isValidMove_true.
  exists b. repeat split; [done..|].
  pose proof (Forall_lookup_1 _ _ _ _ Hall Hb) as [Hlen Hcells _ _].
  destruct (lookup_lt_is_Some_2 (cells b) cellId) as [v Hv]; [lia|].
  pose proof (Forall_lookup_1 _ _ _ _ Hcells Hv) as Hdef.
  rewrite (js_get_lookup _ _ _ Hv) in Hcell. by destruct v.
Qed.

(** ** What applyMove does *)

Lemma applyMove_Applied st boardId cellId st' :
  applyMove st boardId cellId = (st', Applied) →
  gameover (stCtx st) = None
  ∧ markCell (stG st) (stCtx st) boardId cellId = (stG st', Ret EndTurn)
  ∧ gameover (stCtx st') = endGameIf (stG st') (stCtx st)
  ∧ currentPlayer (stCtx st') =
      match gameover (stCtx st') with
      | Some _ => currentPlayer (stCtx st)
      | None => other (currentPlayer (stCtx st))
      end.
Proof.
  unfold applyMove. destruct (gameover (stCtx st)); [done|].
  destruct (markCell _ _ _ _) as [G' [[|]|e]]; [done| |done].
  destruct (endGameIf G' (stCtx st)) as [over|] eqn:Hend;
    intros [= <-]; simpl; by rewrite Hend.
Qed.

(** ** The data model is kept by the moves *)

Lemma valid_setup : valid_state setup.
Proof.
  split; [done|]. apply Forall_replicate.
  split; [done|by apply Forall_replicate|done|done].
Qed.

Lemma valid_markedBoard p cellId b :
  valid_board b → cellId < 9 → valid_board (markedBoard p cellId b).
Proof.
  intros [Hlen Hcells Hw Hc] Hlt.
  assert (length (js_set (cells b) cellId (Mark p)) = 9) as Hlen'.
  { rewrite js_set_in_range by lia. by rewrite length_insert. }
  assert (Forall (λ v, v ≠ Undefined) (js_set (cells b) cellId (Mark p)))
    as Hcells'.
  { rewrite js_set_in_range by lia. by apply Forall_insert. }
  unfold markedBoard. repeat case_match; by split.
Qed.

Lemma valid_markCell G ctx boardId cellId G' :
  valid_state G →
  markCell G ctx boardId cellId = (G', Ret EndTurn) →
  valid_state G' ∧ boardId < 9 ∧ cellId < 9.
Proof.
  intros [Hlen Hall] (b & next & _ & Hb & Hbs & Hnext & _)%markCell_EndTurn.
  assert (boardId < 9) by (rewrite <-Hlen; by eapply lookup_lt_Some).
  assert (cellId < 9).
  { apply lookup_lt_Some in Hnext. rewrite Hbs, length_insert in Hnext. lia. }
  repeat split; [by rewrite Hbs, length_insert| |done..].
  rewrite Hbs. apply Forall_insert; [done|].
  apply valid_markedBoard; [|done].
  rewrite Forall_lookup in Hall. by eapply Hall.
Qed.

Lemma valid_applyMove st boardId cellId st' :
  valid_state (stG st) →
  applyMove st boardId cellId = (st', Applied) →
  valid_state (stG st').
Proof.
  intros Hv (_ & Hm & _)%applyMove_Applied.
  by destruct (valid_markCell _ _ _ _ _ Hv Hm).
Qed.

Lemma reachable_valid st : reachable st → valid_state (stG st).
Proof.
  induction 1 as [|st boardId cellId st' _ IH Hmove].
  - apply valid_setup.
  - by eapply valid_applyMove.
Qed.

Lemma play_reachable st moves st' :
  reachable st → play st moves = Some st' → reachable st'.
Proof.
  revert st. induction moves as [|[boardId cellId] moves IH]; simpl; intros st Hst.
  - by intros [= <-].
  - destruct (applyMove st boardId cellId) as [st1 []] eqn:Hmove; [|done..].
    apply IH. by eapply reachable_move.
Qed.

Lemma reachable_wonState : reachable wonState.
Proof. by apply (play_reachable initial wonGame); [constructor|]. Qed.

Lemma reachable_drawnBoardState : reachable drawnBoardState.
Proof. by apply (play_reachable initial drawnBoardGame); [constructor|]. Qed.

(** A legal move is applied: the moves the theorems below speak of exist. *)
Lemma legal_applied st boardId cellId :
  valid_state (stG st) → legal st boardId cellId →
  ∃ st', applyMove st boardId cellId = (st', Applied).
Proof.
  intros [Hlen _] (Hover & Hb & Hc & (b & Hlookup & Hcomplete & Hcell) & Hnext).
  assert (isValidMove (stG st) boardId cellId = Ret true) as Hvalid.
  { apply isValidMove_true. exists b. repeat split; [done..| |done].
    by rewrite (js_get_lookup _ _ Null). }
  unfold applyMove. rewrite Hover, markCell_unfold, Hvalid, Hlookup. simpl.
  destruct (lookup_lt_is_Some_2
              (<[boardId:=markedBoard (currentPlayer (stCtx st)) cellId b]>
                 (boards (stG st))) cellId) as [next ->].
  { rewrite length_insert. lia. }
  destruct (endGameIf _ _); eauto.
Qed.

(** ** Legality *)

(** C1, as stated, fails in two ways.  [isValidMove] does not look at the
    outcome: in [wonState], reached by [wonGame] and won by player 0, it
    accepts the move (8, 0).  And it does not check [cellId]: in the initial
    state it accepts cell 9 of board 0, as [undefined == null] is true. *)
Lemma isValidMove_is_not_legal :
  (isValidMove (stG wonState) 8 0 = Ret true ∧ ¬ legal wonState 8 0)
  ∧ (isValidMove (stG initial) 0 9 = Ret true ∧ ¬ legal initial 0 9).
Proof.
  split; (split; [done|]); unfold legal.
  - by intros [? _].
  - intros (_ & _ & ? & _). lia.
Qed.

(** Where the indices are out of range: a board that does not exist makes
    [isValidMove] throw when any board may be played, and a cell that does
    not exist is accepted, after which [markCell] writes it and throws at
    [G.boards[cellId]]. *)
Lemma isValidMove_out_of_range :
  isValidMove setup 9 0 = Throw TypeError
  ∧ isValidMove setup 0 9 = Ret true
  ∧ ∃ G', markCell setup (stCtx initial) 0 9 = (G', Throw TypeError)
          ∧ (cells <$> boards G' !! 0) = Some (replicate 9 Null ++ [Mark P0]).
Proof. repeat split. eexists. by split. Qed.

(** C1, amended: on a state of the data model and for [cellId] in 0-8,
    [isValidMove] returns true if and only if [boardId] is in 0-8,
    [boards[boardId].complete] is false, [boards[boardId].cells[cellId]] is
    EMPTY and [nextBoardId] is "any" or [boardId].  The outcome of the game
    is not among the conditions. *)
Theorem isValidMove_iff G boardId cellId :
  valid_state G → cellId < 9 →
  isValidMove G boardId cellId = Ret true ↔
  boardId < 9
  ∧ (∃ b, boards G !! boardId = Some b
          ∧ complete b = false
          ∧ cells b !! cellId = Some Null)
  ∧ (nextBoardId G = None ∨ nextBoardId G = Some boardId).
Proof.
  intros [Hlen Hall] Hc. rewrite isValidMove_true. split.
  - intros (b & Hb & Hcomplete & Hcell & Hnext).
    split; [rewrite <-Hlen; by eapply lookup_lt_Some|]. split; [|done].
    exists b. repeat split; [done..|].
    rewrite Forall_lookup in Hall. destruct (Hall _ _ Hb) as [Hl Hcells _ _].
    destruct (lookup_lt_is_Some_2 (cells b) cellId) as [v Hv]; [lia|].
    rewrite Forall_lookup in Hcells. specialize (Hcells _ _ Hv).
    rewrite (js_get_lookup _ _ _ Hv) in Hcell. by destruct v.
  - intros (_ & (b & Hb & Hcomplete & Hcell) & Hnext).
    exists b. repeat split; [done..| |done].
    by rewrite (js_get_lookup _ _ _ Hcell).
Qed.

Lemma isValidMove_iff_witness :
  valid_state setup ∧ 4 < 9 ∧
  (isValidMove setup 4 4 = Ret true ↔
   4 < 9
   ∧ (∃ b, boards setup !! 4 = Some b
           ∧ complete b = false
           ∧ cells b !! 4 = Some Null)
   ∧ (nextBoardId setup = None ∨ nextBoardId setup = Some 4)).
Proof.
  split; [apply valid_setup|]. split; [lia|].
  apply (isValidMove_iff setup 4 4); [apply valid_setup | lia].
Defined.

(** ** Refused moves *)

(** When [isValidMove] returns false, or when the game is over, the move
    is refused and the state after the call is the state before it: the
    dispatch stops at the outcome, and [markCell] returns [INVALID_MOVE]
    before its first assignment. *)
Lemma applyMove_refuses_invalid st boardId cellId :
  isValidMove (stG st) boardId cellId = Ret false
  ∨ gameover (stCtx st) ≠ None →
  applyMove st boardId cellId = (st, IllegalMoveError).
Proof.
  intros H. unfold applyMove.
  destruct (gameover (stCtx st)) as [over|] eqn:Hover; [done|].
  destruct H as [H|H]; [|done].
  rewrite (markCell_invalid _ _ _ _ H). by destruct st.
Qed.

Lemma reachable_selfSendState : reachable selfSendState.
Proof. by apply (play_reachable initial selfSendGame); [constructor|]. Qed.

(** C2, as stated, fails for moves that are not legal because an index is
    out of range.  In the initial state the move (0, 9) is not legal, yet
    it is not refused with [IllegalMoveError]: [isValidMove] accepts it,
    [markCell] writes cell 9 of board 0 of the [G] it was given, and throws
    a [TypeError] at [G.boards[9]].  The move (9, 0) is not legal either,
    and [isValidMove] throws the [TypeError] itself. *)
Lemma applyMove_out_of_range_not_refused :
  (¬ legal initial 0 9
   ∧ applyMove initial 0 9 = (initial, Crashed TypeError)
   ∧ ∃ G', markCell (stG initial) (stCtx initial) 0 9 = (G', Throw TypeError)
           ∧ G' ≠ stG initial)
  ∧ (¬ legal initial 9 0
     ∧ applyMove initial 9 0 = (initial, Crashed TypeError)).
Proof.
  split; split.
  - intros (_ & _ & ? & _). lia.
  - split; [done|]. eexists. split; [done|]. discriminate.
  - intros (_ & ? & _). lia.
  - done.
Qed.

(** C2, amended: whenever the game is over, and, on a state of the data
    model, whenever a move with [boardId] and [cellId] in 0-8 is not legal,
    [applyMove] fails with [IllegalMoveError] and the state after the call
    is the state before it. *)
Theorem applyMove_refuses st boardId cellId :
  gameover (stCtx st) ≠ None
  ∨ (valid_state (stG st) ∧ boardId < 9 ∧ cellId < 9
     ∧ ¬ legal st boardId cellId) →
  applyMove st boardId cellId = (st, IllegalMoveError).
Proof.
  intros [Hover|(Hv & Hb & Hc & Hnot)];
    [apply applyMove_refuses_invalid; by right|].
  destruct (gameover (stCtx st)) as [over|] eqn:Hover;
    [apply applyMove_refuses_invalid; right; by rewrite Hover|].
  apply applyMove_refuses_invalid. left.
  destruct (isValidMove_returns (stG st) boardId cellId) as [[|] Hvalid];
    [by rewrite (proj1 Hv)| |done].
  destruct Hnot. split; [done|]. split; [done|]. split; [done|].
  destruct (accepted_cell_null _ _ _ Hv Hc Hvalid) as (b & Hlookup & Hrest).
  apply isValidMove_true in Hvalid as (_ & _ & _ & _ & Hnext).
  split; [by exists b | done].
Qed.

(** In [selfSendState] the game goes on and player 0 is sent to board 0,
    whose cell 4 is taken: the move (0, 4) goes through [markCell], which
    returns [INVALID_MOVE]. *)
Lemma applyMove_refuses_witness :
  applyMove selfSendState 0 4 = (selfSendState, IllegalMoveError).
Proof.
  apply (applyMove_refuses selfSendState 0 4). right.
  split; [exact (reachable_valid _ reachable_selfSendState)|].
  split; [lia|]. split; [lia|].
  intros (_ & _ & _ & (b & Hb & _ & Hcell) & _).
  vm_compute in Hb. injection Hb as <-. vm_compute in Hcell. discriminate.
Defined.

(** ** The outcome *)

(** Where every board that has a winner is complete, a meta-grid without
    EMPTY means that all boards are complete. *)
Lemma meta_full_all_complete (bs : list Board) :
  Forall valid_board bs →
  isComplete (boardsToCells bs) = true → allBoardsComplete bs = true.
Proof.
  rewrite isComplete_true, allBoardsComplete_true. unfold boardsToCells.
  rewrite Forall_fmap, !Forall_lookup. intros Hv Hw i b Hb.
  apply (vb_complete b); [by eapply Hv|]. by apply (Hw i b).
Qed.

Lemma draw_test (bs : list Board) :
  Forall valid_board bs →
  isComplete (boardsToCells bs) || allBoardsComplete bs = allBoardsComplete bs.
Proof.
  intros Hv. destruct (isComplete (boardsToCells bs)) eqn:Hfull; [|done].
  by rewrite (meta_full_all_complete bs Hv Hfull).
Qed.

Lemma endGameIf_checkGlobalOutcome G ctx :
  valid_state G →
  endGameIf G ctx = checkGlobalOutcome (currentPlayer ctx) (boards G).
Proof.
  intros [Hlen Hv]. unfold endGameIf, checkGlobalOutcome.
  rewrite (draw_test _ Hv), allBoardsComplete_forallb.
  rewrite isVictory_hasWinningLine; [done| |].
  - unfold boardsToCells. by rewrite length_fmap.
  - unfold boardsToCells. rewrite Forall_fmap.
    eapply Forall_impl; [exact Hv|]. intros b Hb. apply (vb_winner b Hb).
Qed.

(** C3: after a legal move the outcome is the one the specification
    computes from the boards after the move: won by the player who has just
    moved if the winners of the boards contain one of the eight lines, else
    a draw if all boards are complete, else none (the game goes on). *)
Theorem applyMove_outcome st boardId cellId st' :
  valid_state (stG st) →
  applyMove st boardId cellId = (st', Applied) →
  gameover (stCtx st') =
  checkGlobalOutcome (currentPlayer (stCtx st)) (boards (stG st')).
Proof.
  intros Hv Hmove. pose proof (valid_applyMove _ _ _ _ Hv Hmove) as Hv'.
  apply applyMove_Applied in Hmove as (_ & _ & -> & _).
  by apply endGameIf_checkGlobalOutcome.
Qed.

Lemma reachable_almostWonState : reachable almostWonState.
Proof. by apply (play_reachable initial almostWonGame); [constructor|]. Qed.

(** The move that wins the match of [wonGame]. *)
Lemma winning_move : applyMove almostWonState 2 8 = (wonState, Applied).
Proof. reflexivity. Qed.

Lemma applyMove_outcome_witness :
  valid_state (stG almostWonState)
  ∧ applyMove almostWonState 2 8 = (wonState, Applied)
  ∧ gameover (stCtx wonState) =
    checkGlobalOutcome (currentPlayer (stCtx almostWonState))
                       (boards (stG wonState)).
Proof.
  pose proof (reachable_valid _ reachable_almostWonState) as Hv.
  split; [exact Hv|]. split; [exact winning_move|].
  exact (applyMove_outcome _ 2 8 _ Hv winning_move).
Defined.

(** ** The board that is played *)

(** A board that [isValidMove] accepts has no winner yet. *)
Lemma open_board_no_winner b :
  valid_board b → complete b = false → winner b = Null.
Proof.
  intros Hb Hc. destruct (decide (winner b = Null)) as [|Hw]; [done|].
  rewrite (vb_complete b Hb Hw) in Hc. done.
Qed.

(** C4: after a legal move of player [p] at [(boardId, cellId)], the cells
    of board [boardId] are the former ones with [p] at [cellId]; if they
    contain a winning line the board is complete and won by [p]; else if
    all of them are non-EMPTY the board is complete and its winner is still
    EMPTY; else [complete] and [winner] are what they were. *)
Theorem applyMove_local_board st boardId cellId st' :
  valid_state (stG st) →
  applyMove st boardId cellId = (st', Applied) →
  ∃ b b',
    boards (stG st) !! boardId = Some b
    ∧ boards (stG st') !! boardId = Some b'
    ∧ complete b = false ∧ winner b = Null
    ∧ cells b' = <[cellId := Mark (currentPlayer (stCtx st))]> (cells b)
    ∧ (if hasWinningLine (cells b') then
         complete b' = true ∧ winner b' = Mark (currentPlayer (stCtx st))
       else if allCellsFilled (cells b') then
         complete b' = true ∧ winner b' = Null
       else complete b' = complete b ∧ winner b' = winner b).
Proof.
  intros Hv (_ & Hm & _)%applyMove_Applied.
  destruct (valid_markCell _ _ _ _ _ Hv Hm) as (_ & Hb9 & Hc9).
  apply markCell_EndTurn in Hm as (b & next & Hvalid & Hb & Hbs & _).
  apply isValidMove_true in Hvalid as (b0 & Hb0 & Hopen & _).
  assert (b0 = b) as -> by congruence.
  destruct Hv as [Hlen Hall].
  assert (valid_board b) as Hvb by by eapply Forall_lookup_1.
  pose proof (open_board_no_winner b Hvb Hopen) as Hw.
  pose proof (valid_markedBoard (currentPlayer (stCtx st)) cellId b Hvb Hc9)
    as [Hlen' Hcells' _ _].
  exists b, (markedBoard (currentPlayer (stCtx st)) cellId b).
  split; [done|]. split.
  { rewrite Hbs. apply list_lookup_insert_eq. by eapply lookup_lt_Some. }
  split; [done|]. split; [done|].
  assert (cells (markedBoard (currentPlayer (stCtx st)) cellId b)
          = js_set (cells b) cellId (Mark (currentPlayer (stCtx st)))) as Hcs
    by (unfold markedBoard; by repeat case_match).
  rewrite Hcs in *. split.
  { apply js_set_in_range. rewrite (vb_length b Hvb). done. }
  rewrite <-(isVictory_hasWinningLine _ Hlen' Hcells').
  rewrite <-(isComplete_allCellsFilled _ Hcells').
  unfold markedBoard. by repeat case_match.
Qed.

Lemma applyMove_local_board_witness :
  valid_state (stG almostWonState)
  ∧ applyMove almostWonState 2 8 = (wonState, Applied)
  ∧ ∃ b b',
      boards (stG almostWonState) !! 2 = Some b
      ∧ boards (stG wonState) !! 2 = Some b'
      ∧ complete b = false ∧ winner b = Null
      ∧ cells b' = <[8 := Mark (currentPlayer (stCtx almostWonState))]> (cells b)
      ∧ (if hasWinningLine (cells b') then
           complete b' = true
           ∧ winner b' = Mark (currentPlayer (stCtx almostWonState))
         else if allCellsFilled (cells b') then
           complete b' = true ∧ winner b' = Null
         else complete b' = complete b ∧ winner b' = winner b).
Proof.
  pose proof (reachable_valid _ reachable_almostWonState) as Hv.
  split; [exact Hv|]. split; [exact winning_move|].
  exact (applyMove_local_board _ 2 8 _ Hv winning_move).
Defined.

(** ** The next board *)

(** C5: after a legal move at [(boardId, cellId)], [nextBoardId] is
    [cellId] if board [cellId] of the boards after the move is not complete,
    and "any" if it is. *)
Theorem applyMove_nextBoardId st boardId cellId st' :
  applyMove st boardId cellId = (st', Applied) →
  ∃ next,
    boards (stG st') !! cellId = Some next
    ∧ nextBoardId (stG st') = (if complete next then None else Some cellId).
Proof.
  intros (_ & Hm & _)%applyMove_Applied.
  apply markCell_EndTurn in Hm as (b & next & _ & _ & _ & Hnext & Hid).
  by exists next.
Qed.

(** The move that completes board 0 in [selfSendGame] is in cell 0: the
    board it would send to is the one it has just completed. *)
Lemma self_sending_move :
  applyMove selfSendState 0 0 = (selfSentState, Applied)
  ∧ nextBoardId (stG selfSentState) = None.
Proof. done. Qed.

Lemma applyMove_nextBoardId_witness :
  applyMove selfSendState 0 0 = (selfSentState, Applied)
  ∧ ∃ next,
      boards (stG selfSentState) !! 0 = Some next
      ∧ nextBoardId (stG selfSentState)
        = (if complete next then None else Some 0).
Proof.
  split; [exact (proj1 self_sending_move)|].
  exact (applyMove_nextBoardId _ 0 0 _ (proj1 self_sending_move)).
Defined.

(** ** Whose turn it is *)

(** C8: after a legal move that leaves the game going on, it is the other
    player's turn. *)
Theorem applyMove_other_player st boardId cellId st' :
  applyMove st boardId cellId = (st', Applied) →
  gameover (stCtx st') = None →
  currentPlayer (stCtx st') = other (currentPlayer (stCtx st)).
Proof.
  intros (_ & _ & _ & Hp)%applyMove_Applied Hover. by rewrite Hover in Hp.
Qed.

Lemma applyMove_other_player_witness :
  applyMove selfSendState 0 0 = (selfSentState, Applied)
  ∧ gameover (stCtx selfSentState) = None
  ∧ currentPlayer (stCtx selfSentState)
    = other (currentPlayer (stCtx selfSendState)).
Proof.
  split; [exact (proj1 self_sending_move)|]. split; [reflexivity|].
  exact (applyMove_other_player _ 0 0 _ (proj1 self_sending_move) eq_refl).
Defined.

(** ** What a move leaves alone *)

(** C10: of the boards, a legal move at [(boardId, cellId)] changes board
    [boardId] only, and of its cells, cell [cellId] only, which held no
    mark: every mark on the board stays where it is. *)
Theorem applyMove_frame st boardId cellId st' :
  applyMove st boardId cellId = (st', Applied) →
  length (boards (stG st')) = length (boards (stG st))
  ∧ (∀ i, i ≠ boardId → boards (stG st') !! i = boards (stG st) !! i)
  ∧ ∃ b b',
      boards (stG st) !! boardId = Some b
      ∧ boards (stG st') !! boardId = Some b'
      ∧ js_get (cells b') cellId = Mark (currentPlayer (stCtx st))
      ∧ (∀ j, j ≠ cellId → js_get (cells b') j = js_get (cells b) j)
      ∧ (∀ j p, js_get (cells b) j = Mark p → js_get (cells b') j = Mark p).
Proof.
  intros (_ & Hm & _)%applyMove_Applied.
  apply markCell_EndTurn in Hm as (b & next & Hvalid & Hb & Hbs & _).
  apply isValidMove_true in Hvalid as (b0 & Hb0 & _ & Hempty & _).
  assert (b0 = b) as -> by congruence.
  rewrite Hbs. split; [by rewrite length_insert|].
  split; [intros i Hi; by rewrite list_lookup_insert_ne|].
  exists b, (markedBoard (currentPlayer (stCtx st)) cellId b).
  split; [done|].
  split; [apply list_lookup_insert_eq; by eapply lookup_lt_Some|].
  assert (cells (markedBoard (currentPlayer (stCtx st)) cellId b)
          = js_set (cells b) cellId (Mark (currentPlayer (stCtx st)))) as ->
    by (unfold markedBoard; by repeat case_match).
  split; [apply js_get_set_eq|].
  split; [intros j Hj; by apply js_get_set_ne|].
  intros j p Hp. destruct (decide (j = cellId)) as [->|Hj].
  - rewrite Hp in Hempty. done.
  - by rewrite js_get_set_ne.
Qed.

Lemma applyMove_frame_witness :
  applyMove almostWonState 2 8 = (wonState, Applied)
  ∧ length (boards (stG wonState)) = length (boards (stG almostWonState))
  ∧ (∀ i, i ≠ 2 → boards (stG wonState) !! i = boards (stG almostWonState) !! i)
  ∧ ∃ b b',
      boards (stG almostWonState) !! 2 = Some b
      ∧ boards (stG wonState) !! 2 = Some b'
      ∧ js_get (cells b') 8 = Mark (currentPlayer (stCtx almostWonState))
      ∧ (∀ j, j ≠ 8 → js_get (cells b') j = js_get (cells b) j)
      ∧ (∀ j p, js_get (cells b) j = Mark p → js_get (cells b') j = Mark p).
Proof.
  split; [exact winning_move|].
  exact (applyMove_frame _ 2 8 _ winning_move).
Defined.

(** ** The invariant of the boards *)

(** C6: in a state reached by legal moves, the draw test of [endGameIf],
    "no winner of a board is EMPTY, or all boards are complete", has the
    value of its second half, which is true exactly when each of the nine
    boards is complete. *)
Theorem draw_test_reachable st :
  reachable st →
  isComplete (boardsToCells (boards (stG st)))
  || allBoardsComplete (boards (stG st))
  = allBoardsComplete (boards (stG st))
  ∧ (allBoardsComplete (boards (stG st)) = true ↔
     ∀ i, i < 9 → ∃ b, boards (stG st) !! i = Some b ∧ complete b = true).
Proof.
  intros [Hlen Hv]%reachable_valid. split; [by apply draw_test|].
  rewrite allBoardsComplete_true, Forall_lookup. split.
  - intros H i Hi.
    destruct (lookup_lt_is_Some_2 (boards (stG st)) i) as [b Hb]; [lia|].
    exists b. split; [done|]. by eapply H.
  - intros H i b Hb. destruct (H i) as (b' & Hb' & Hc).
    + rewrite <-Hlen. by eapply lookup_lt_Some.
    + congruence.
Qed.

Lemma draw_test_reachable_witness :
  reachable drawnBoardState
  ∧ isComplete (boardsToCells (boards (stG drawnBoardState)))
    || allBoardsComplete (boards (stG drawnBoardState))
    = allBoardsComplete (boards (stG drawnBoardState))
  ∧ (allBoardsComplete (boards (stG drawnBoardState)) = true ↔
     ∀ i, i < 9 →
          ∃ b, boards (stG drawnBoardState) !! i = Some b ∧ complete b = true).
Proof.
  split; [exact reachable_drawnBoardState|].
  exact (draw_test_reachable _ reachable_drawnBoardState).
Defined.

(** C7: in a state reached by legal moves, a board whose winner is not
    EMPTY is complete.  A complete board need not have a winner: board 4
    of [drawnBoardState] is complete and its winner is EMPTY. *)
Theorem winner_complete :
  (∀ st i b,
     reachable st → boards (stG st) !! i = Some b →
     winner b ≠ Null → complete b = true)
  ∧ (∃ st i b,
       reachable st ∧ boards (stG st) !! i = Some b
       ∧ complete b = true ∧ winner b = Null).
Proof.
  split.
  - intros st i b [_ Hv]%reachable_valid Hb.
    apply (vb_complete b). by eapply Forall_lookup_1.
  - exists drawnBoardState, 4. eexists.
    split; [exact reachable_drawnBoardState|]. by split.
Qed.

Lemma winner_complete_witness :
  ∃ b,
    reachable wonState ∧ boards (stG wonState) !! 0 = Some b
    ∧ winner b ≠ Null ∧ complete b = true.
Proof.
  eexists. split; [exact reachable_wonState|].
  assert (boards (stG wonState) !! 0 = Some _) as Hb by reflexivity.
  split; [exact Hb|].
  assert (Mark P0 ≠ Null) as Hw by discriminate.
  split; [exact Hw|].
  exact (proj1 winner_complete wonState 0 _ reachable_wonState Hb Hw).
Defined.

(** ** The enumeration of the moves *)

(** The inner loop keeps, in order, the cells that [isValidMove] accepts. *)
Lemma enumerate_cells_filter G boardId cellIds moves :
  boardId < length (boards G) →
  enumerate_cells G boardId cellIds moves =
  Ret (moves ++ filter (λ m, isValidMove G m.1 m.2 = Ret true)
                       (pair boardId <$> cellIds)).
Proof.
  intros Hb. revert moves.
  induction cellIds as [|cellId rest IH]; intros moves; simpl.
  - by rewrite filter_nil, app_nil_r.
  - destruct (isValidMove_returns G boardId cellId Hb) as [v Hv].
    rewrite Hv, IH, filter_cons. simpl. rewrite Hv. destruct v.
    + rewrite decide_True by done. by rewrite <-app_assoc.
    + by rewrite decide_False by done.
Qed.

Lemma enumerate_boards_filter G boardIds moves :
  Forall (λ b, b < length (boards G)) boardIds →
  enumerate_boards G boardIds moves =
  Ret (moves ++ filter (λ m, isValidMove G m.1 m.2 = Ret true)
                       (b ← boardIds; pair b <$> seq 0 9)).
Proof.
  intros Hall. revert moves.
  induction Hall as [|boardId rest Hb _ IH]; intros moves;
    cbn [enumerate_boards].
  - change ([] ≫= _) with (@nil (nat * nat)). by rewrite filter_nil, app_nil_r.
  - rewrite enumerate_cells_filter by done. rewrite IH.
    by rewrite bind_cons, filter_app, app_assoc.
Qed.

Lemma elem_of_allMoves b c : (b, c) ∈ allMoves ↔ b < 9 ∧ c < 9.
Proof.
  unfold allMoves. rewrite list_elem_of_bind. split.
  - intros (b' & Hc & Hb). apply list_elem_of_fmap in Hc as (c' & [= -> ->] & Hc).
    apply elem_of_seq in Hb, Hc. lia.
  - intros [Hb Hc]. exists b. split.
    + apply list_elem_of_fmap. exists c. split; [done|]. apply elem_of_seq. lia.
    + apply elem_of_seq. lia.
Qed.





(** In [selfSendState] player 0 is sent to board 0, where cells 4 and 8 are
    taken. *)
Lemma enumerate_selfSendState :
  enumerate (stG selfSendState) (stCtx selfSendState)
  = Ret [(0, 0); (0, 1); (0, 2); (0, 3); (0, 5); (0, 6); (0, 7)].
Proof. reflexivity. Qed.

(** * Further properties of the code *)

(** ** Lines *)

Lemma cells_markedBoard p cellId b :
  cells (markedBoard p cellId b) = js_set (cells b) cellId (Mark p).
Proof. unfold markedBoard. by repeat case_match. Qed.

Lemma winner_markedBoard p cellId b :
  winner (markedBoard p cellId b) = Mark p
  ∨ (isVictory (js_set (cells b) cellId (Mark p)) = false
     ∧ winner (markedBoard p cellId b) = winner b).
Proof. unfold markedBoard. repeat case_match; auto. Qed.

Lemma hasWinningLine_hasLineOf (l : list jsval) :
  hasWinningLine l = true ↔ ∃ p, hasLineOf p l = true.
Proof.
  unfold hasWinningLine, hasLineOf. split.
  - intros [[[a b] c] [Hin Hs]]%existsb_exists. unfold same_mark in Hs.
    destruct (l !! a) as [[| |p]|] eqn:Ha; try done.
    destruct (l !! b) as [[| |q]|] eqn:Hb; try done.
    destruct (l !! c) as [[| |r]|] eqn:Hc; try done.
    apply andb_true_iff in Hs as [H1%bool_decide_eq_true H2%bool_decide_eq_true].
    subst q r. exists p. apply existsb_exists. exists (a, b, c).
    split; [done|]. rewrite Ha, Hb, Hc. by rewrite !bool_decide_eq_true_2.
  - intros [p [[[a b] c] [Hin Hs]]%existsb_exists]. apply existsb_exists.
    exists (a, b, c). split; [done|].
    apply andb_true_iff in Hs as [[Ha Hb]%andb_true_iff Hc].
    apply bool_decide_eq_true in Ha, Hb, Hc. rewrite Ha, Hb, Hc. simpl.
    by rewrite !bool_decide_eq_true_2.
Qed.

(** Where there was no line, a line that a new mark makes is a line of the
    player of that mark. *)
Lemma new_line_owner (l : list jsval) i p q :
  hasWinningLine l = false → hasLineOf q (<[i:=Mark p]> l) = true → q = p.
Proof.
  intros Hno [[[a b] c] [Hin Hs]]%existsb_exists.
  apply andb_true_iff in Hs as [[Ha Hb]%andb_true_iff Hc].
  apply bool_decide_eq_true in Ha, Hb, Hc.
  destruct (decide (q = p)) as [|Hne]; [done|]. exfalso.
  assert (∀ j, <[i:=Mark p]> l !! j = Some (Mark q) → l !! j = Some (Mark q))
    as Hold.
  { intros j. rewrite list_lookup_insert. case_decide; [|done].
    intros [=]. congruence. }
  apply Hold in Ha, Hb, Hc.
  assert (hasWinningLine l = true) as Hyes; [|congruence].
  apply existsb_exists. exists (a, b, c). split; [done|].
  rewrite Ha, Hb, Hc. simpl. by rewrite !bool_decide_eq_true_2.
Qed.

Lemma line_out_of_range (l : list jsval) a b c :
  length l ≤ a → length l ≤ b → length l ≤ c → line l a b c = true.
Proof. intros Ha Hb Hc. unfold line. by rewrite !js_get_ge. Qed.

(** X1: [isVictory] reads the cells 0 to 8 whatever the length of the
    array, and three cells read as [undefined] are "the same, and not
    null": on an array of six cells or fewer (the empty array among them)
    it answers true. *)
Theorem isVictory_short_array (l : list jsval) :
  length l ≤ 6 → isVictory l = true.
Proof.
  intros Hl. unfold isVictory.
  rewrite (line_out_of_range l 6 7 8) by lia. by rewrite orb_true_r.
Qed.

Lemma isVictory_short_array_witness :
  length (replicate 6 Null) ≤ 6 ∧ isVictory (replicate 6 Null) = true.
Proof.
  assert (length (replicate 6 Null) ≤ 6) as H by (simpl; lia).
  split; [exact H|]. exact (isVictory_short_array _ H).
Defined.

Lemma line_set_null (l : list jsval) i v a b c :
  js_get l i = Null → line l a b c = true → line (js_set l i v) a b c = true.
Proof.
  intros Hi. unfold line, not_null, strict_eq.
  rewrite !andb_true_iff, negb_true_iff, !bool_decide_eq_true,
    bool_decide_eq_false.
  intros (Ha & Hb & Hc).
  assert (i ≠ a) by congruence. assert (i ≠ b) by congruence.
  assert (i ≠ c) by congruence.
  rewrite !js_get_set_ne by done.
  by rewrite negb_true_iff, bool_decide_eq_false.
Qed.

(** X2: a victory stays a victory when an EMPTY cell is written, whatever
    is written in it. *)
Theorem isVictory_monotone (l : list jsval) i v :
  js_get l i = Null → isVictory l = true → isVictory (js_set l i v) = true.
Proof.
  intros Hi. unfold isVictory. rewrite !orb_true_iff.
  pose proof (line_set_null l i v) as Hline.
  intros H. repeat (destruct H as [H|H]; [left|right; by apply Hline]).
  by apply Hline.
Qed.

Lemma isVictory_monotone_witness :
  js_get [Mark P1; Mark P1; Mark P1; Null; Null; Null; Null; Null; Null] 4
  = Null
  ∧ isVictory [Mark P1; Mark P1; Mark P1; Null; Null; Null; Null; Null; Null]
    = true
  ∧ isVictory
      (js_set [Mark P1; Mark P1; Mark P1; Null; Null; Null; Null; Null; Null]
              4 (Mark P0)) = true.
Proof.
  split; [reflexivity|]. split; [reflexivity|].
  exact (isVictory_monotone
           [Mark P1; Mark P1; Mark P1; Null; Null; Null; Null; Null; Null]
           4 (Mark P0) eq_refl eq_refl).
Defined.

(** ** markCell at and past the bounds *)

(** X3: for a board that does not exist, [markCell] assigns nothing: it
    throws a [TypeError] when any board may be played or when the missing
    board is the one to play, and returns [INVALID_MOVE] otherwise. *)
Theorem markCell_missing_board G ctx boardId cellId :
  length (boards G) ≤ boardId →
  markCell G ctx boardId cellId =
  (G, if bool_decide (nextBoardId G = None ∨ nextBoardId G = Some boardId)
      then Throw TypeError else Ret INVALID_MOVE).
Proof.
  intros Hb. rewrite markCell_unfold. unfold isValidMove.
  rewrite (lookup_ge_None_2 _ _ Hb).
  destruct (decide (nextBoardId G = None ∨ nextBoardId G = Some boardId))
    as [Hd|Hd].
  - rewrite (bool_decide_eq_true_2 _ Hd).
    assert (bool_decide (Some boardId = nextBoardId G)
            || bool_decide (nextBoardId G = None) = true) as ->; [|done].
    apply orb_true_iff.
    destruct Hd as [H|H]; [right|left]; by apply bool_decide_eq_true.
  - rewrite (bool_decide_eq_false_2 _ Hd).
    assert (bool_decide (Some boardId = nextBoardId G)
            || bool_decide (nextBoardId G = None) = false) as ->; [|done].
    apply orb_false_iff. split; apply bool_decide_eq_false; naive_solver.
Qed.

Lemma markCell_missing_board_witness :
  length (boards setup) ≤ 9
  ∧ markCell setup (stCtx initial) 9 0 =
    (setup,
     if bool_decide (nextBoardId setup = None ∨ nextBoardId setup = Some 9)
     then Throw TypeError else Ret INVALID_MOVE).
Proof.
  assert (length (boards setup) ≤ 9) as H by (simpl; lia).
  split; [exact H|]. exact (markCell_missing_board setup (stCtx initial) 9 0 H).
Defined.



(** X5: within the bounds [markCell] does not throw: on a state of the
    data model and for indices in 0-8 it returns [INVALID_MOVE] and leaves
    [G] as it is, or it ends the turn and leaves a state of the data
    model. *)
Theorem markCell_in_range G ctx boardId cellId :
  valid_state G → boardId < 9 → cellId < 9 →
  markCell G ctx boardId cellId = (G, Ret INVALID_MOVE)
  ∨ ∃ G', markCell G ctx boardId cellId = (G', Ret EndTurn) ∧ valid_state G'.
Proof.
  intros Hv Hb Hc. pose proof Hv as [Hlen _].
  destruct (isValidMove_returns G boardId cellId) as [[|] Hvalid]; [lia| |].
  - right. pose proof Hvalid as (b & Hlookup & _)%isValidMove_true.
    pose proof (markCell_unfold G ctx boardId cellId) as Heq.
    rewrite Hvalid, Hlookup in Heq. simpl in Heq.
    destruct (lookup_lt_is_Some_2
                (<[boardId:=markedBoard (currentPlayer ctx) cellId b]>
                   (boards G)) cellId) as [next Hnext].
    { rewrite length_insert. lia. }
    rewrite Hnext in Heq. eexists. split; [exact Heq|].
    by destruct (valid_markCell _ _ _ _ _ Hv Heq).
  - left. by apply markCell_invalid.
Qed.

Lemma markCell_in_range_witness :
  valid_state setup ∧ 3 < 9 ∧ 5 < 9
  ∧ (markCell setup (stCtx initial) 3 5 = (setup, Ret INVALID_MOVE)
     ∨ ∃ G', markCell setup (stCtx initial) 3 5 = (G', Ret EndTurn)
             ∧ valid_state G').
Proof.
  assert (3 < 9) as H3 by lia. assert (5 < 9) as H5 by lia.
  split; [exact valid_setup|]. split; [exact H3|]. split; [exact H5|].
  exact (markCell_in_range setup (stCtx initial) 3 5 valid_setup H3 H5).
Defined.

(** X6: a complete board is out of the game: no move that [markCell]
    carries out changes it, cells, flag or winner. *)
Theorem markCell_complete_board_frozen G ctx boardId cellId G' i b :
  markCell G ctx boardId cellId = (G', Ret EndTurn) →
  boards G !! i = Some b → complete b = true →
  boards G' !! i = Some b.
Proof.
  intros (b0 & next & Hvalid & Hb0 & Hbs & _)%markCell_EndTurn Hb Hc.
  apply isValidMove_true in Hvalid as (b1 & Hb1 & Hopen & _).
  assert (boardId ≠ i) by (intros ->; congruence).
  by rewrite Hbs, list_lookup_insert_ne.
Qed.

Lemma markCell_complete_board_frozen_witness :
  ∃ b,
    markCell (stG almostWonState) (stCtx almostWonState) 2 8
    = (stG wonState, Ret EndTurn)
    ∧ boards (stG almostWonState) !! 0 = Some b ∧ complete b = true
    ∧ boards (stG wonState) !! 0 = Some b.
Proof.
  eexists.
  assert (markCell (stG almostWonState) (stCtx almostWonState) 2 8
          = (stG wonState, Ret EndTurn)) as Hm by reflexivity.
  assert (boards (stG almostWonState) !! 0 = Some _) as Hb by reflexivity.
  split; [exact Hm|]. split; [exact Hb|]. split; [reflexivity|].
  exact (markCell_complete_board_frozen _ _ 2 8 _ 0 _ Hm Hb eq_refl).
Defined.

(** ** What the boards of a match look like *)

Lemma played_valid G : played_state G → valid_state G.
Proof.
  intros (Hlen & Hall & _). split; [done|].
  eapply Forall_impl; [exact Hall|]. intros b Hb. apply (pb_valid b Hb).
Qed.

Lemma played_setup : played_state setup.
Proof.
  split; [done|]. split; [|done]. apply Forall_replicate. split.
  - split; [done|by apply Forall_replicate|done|done].
  - reflexivity.
  - intros p. split; [done|]. by destruct p.
Qed.

Lemma isVictory_false_no_line (l : list jsval) p :
  length l = 9 → Forall (λ v, v ≠ Undefined) l →
  isVictory l = false → hasLineOf p l = false.
Proof.
  intros Hlen Hl Hno. rewrite isVictory_hasWinningLine in Hno by done.
  destruct (hasLineOf p l) eqn:Hp; [|done].
  assert (hasWinningLine l = true) by (apply hasWinningLine_hasLineOf; eauto).
  congruence.
Qed.

Lemma played_markedBoard p cellId b :
  played_board b → cellId < 9 → complete b = false →
  played_board (markedBoard p cellId b).
Proof.
  intros [Hv Hc Hw] Hlt Hopen.
  pose proof (valid_markedBoard p cellId b Hv Hlt) as Hv'.
  pose proof (open_board_no_winner b Hv Hopen) as Hnull.
  assert (hasWinningLine (cells b) = false) as Hold.
  { rewrite <-isVictory_hasWinningLine
      by (apply (vb_length b Hv) || apply (vb_cells b Hv)).
    rewrite Hopen in Hc. symmetry in Hc. by apply orb_false_iff in Hc as [? _]. }
  assert (js_set (cells b) cellId (Mark p) = <[cellId:=Mark p]> (cells b))
    as Hset by (apply js_set_in_range; by rewrite (vb_length b Hv)).
  pose proof Hv' as [Hlen' Hcells' _ _].
  rewrite cells_markedBoard in Hlen', Hcells'.
  split; [done| |].
  - rewrite cells_markedBoard. unfold markedBoard.
    destruct (isVictory (js_set (cells b) cellId (Mark p))) eqn:E1;
      simpl; [done|].
    destruct (isComplete (js_set (cells b) cellId (Mark p))) eqn:E2;
      simpl; done.
  - intros q. rewrite cells_markedBoard. unfold markedBoard.
    destruct (isVictory (js_set (cells b) cellId (Mark p))) eqn:E1.
    + simpl. rewrite isVictory_hasWinningLine in E1 by done.
      apply hasWinningLine_hasLineOf in E1 as [r Hr]. rewrite Hset in *.
      pose proof (new_line_owner _ _ _ _ Hold Hr) as ->. split.
      * by intros [= <-].
      * intros Hq. by rewrite (new_line_owner _ _ _ _ Hold Hq).
    + rewrite (isVictory_false_no_line _ q Hlen' Hcells' E1).
      destruct (isComplete (js_set (cells b) cellId (Mark p))); simpl;
        by rewrite Hnull.
Qed.

Lemma played_markCell G ctx boardId cellId G' :
  played_state G →
  markCell G ctx boardId cellId = (G', Ret EndTurn) →
  played_state G'.
Proof.
  intros Hp Hm. pose proof (played_valid G Hp) as Hv.
  destruct (valid_markCell _ _ _ _ _ Hv Hm) as (_ & Hb9 & Hc9).
  destruct Hp as (Hlen & Hall & _).
  apply markCell_EndTurn in Hm as (b & next & Hvalid & Hb & Hbs & Hnext & Hid).
  apply isValidMove_true in Hvalid as (b0 & Hb0 & Hopen & _).
  assert (b0 = b) as -> by congruence.
  split; [by rewrite Hbs, length_insert|]. split.
  - rewrite Hbs. apply Forall_insert; [done|].
    apply played_markedBoard; [|done..]. by eapply Forall_lookup_1.
  - intros n. rewrite Hid. destruct (complete next) eqn:Hc; [done|].
    intros [= <-]. by exists next.
Qed.

Lemma reachable_played st : reachable st → played_state (stG st).
Proof.
  induction 1 as [|st boardId cellId st' _ IH Hmove].
  - apply played_setup.
  - apply applyMove_Applied in Hmove as (_ & Hm & _).
    by eapply played_markCell.
Qed.

(** A board that is not complete has an EMPTY cell. *)
Lemma open_board_has_null b :
  played_board b → complete b = false → ∃ j, cells b !! j = Some Null.
Proof.
  intros [_ Hc _] Hopen. rewrite Hopen in Hc. symmetry in Hc.
  apply orb_false_iff in Hc as [_ Hfull].
  assert (¬ Forall (λ v, v ≠ Null) (cells b)) as Hnot.
  { intros H%isComplete_true. congruence. }
  apply not_Forall_Exists in Hnot; [|apply _].
  apply Exists_exists in Hnot as (v & Hin & Hv).
  apply list_elem_of_lookup_1 in Hin as [j Hj]. exists j.
  destruct (decide (v = Null)) as [->|Hne]; [done|]. by destruct Hv.
Qed.

(** X7: in a state reached by legal moves the flag [complete] of a board
    says exactly that its cells hold a line or are all taken. *)
Theorem reachable_complete_exact st i b :
  reachable st → boards (stG st) !! i = Some b →
  complete b = isVictory (cells b) || isComplete (cells b).
Proof.
  intros (_ & Hall & _)%reachable_played Hb.
  apply pb_complete. by eapply Forall_lookup_1.
Qed.

Lemma reachable_complete_exact_witness :
  ∃ b,
    reachable drawnBoardState ∧ boards (stG drawnBoardState) !! 4 = Some b
    ∧ complete b = isVictory (cells b) || isComplete (cells b).
Proof.
  eexists.
  assert (boards (stG drawnBoardState) !! 4 = Some _) as Hb by reflexivity.
  split; [exact reachable_drawnBoardState|]. split; [exact Hb|].
  exact (reachable_complete_exact _ 4 _ reachable_drawnBoardState Hb).
Defined.

(** X8: in a state reached by legal moves the winner of a board is the
    player who holds a line on it, and no one else holds one: [winner] is
    [p] exactly when [p] has three marks on one of the eight lines. *)
Theorem reachable_winner_holds_line st i b p :
  reachable st → boards (stG st) !! i = Some b →
  winner b = Mark p ↔ hasLineOf p (cells b) = true.
Proof.
  intros (_ & Hall & _)%reachable_played Hb.
  apply pb_winner. by eapply Forall_lookup_1.
Qed.

Lemma reachable_winner_holds_line_witness :
  ∃ b,
    reachable wonState ∧ boards (stG wonState) !! 6 = Some b
    ∧ (winner b = Mark P1 ↔ hasLineOf P1 (cells b) = true).
Proof.
  eexists.
  assert (boards (stG wonState) !! 6 = Some _) as Hb by reflexivity.
  split; [exact reachable_wonState|]. split; [exact Hb|].
  exact (reachable_winner_holds_line _ 6 _ P1 reachable_wonState Hb).
Defined.

(** X9: in a state reached by legal moves a player is never sent to a
    board that cannot be played: when [nextBoardId] is a board, that board
    exists, is not complete and has an EMPTY cell. *)
Theorem reachable_next_board_open st n :
  reachable st → nextBoardId (stG st) = Some n →
  ∃ b j,
    boards (stG st) !! n = Some b ∧ complete b = false
    ∧ cells b !! j = Some Null.
Proof.
  intros (_ & Hall & Hnext)%reachable_played Hn.
  destruct (Hnext n Hn) as (b & Hb & Hopen).
  destruct (open_board_has_null b) as [j Hj]; [by eapply Forall_lookup_1|done|].
  by exists b, j.
Qed.

Lemma reachable_next_board_open_witness :
  reachable selfSendState ∧ nextBoardId (stG selfSendState) = Some 0
  ∧ ∃ b j,
      boards (stG selfSendState) !! 0 = Some b ∧ complete b = false
      ∧ cells b !! j = Some Null.
Proof.
  assert (reachable selfSendState) as Hr
    by (by apply (play_reachable initial selfSendGame); [constructor|]).
  split; [exact Hr|]. split; [reflexivity|].
  exact (reachable_next_board_open _ 0 Hr eq_refl).
Defined.

(** ** One mark per move *)

Lemma filter_length_insert {A} (P : A → Prop) `{!∀ x, Decision (P x)}
    (l : list A) i x y :
  l !! i = Some x → ¬ P x → P y →
  length (filter P (<[i:=y]> l)) = S (length (filter P l)).
Proof.
  intros Hi Hx Hy. revert i Hi.
  induction l as [|z l IH]; intros [|i] Hi; simplify_eq/=.
  - rewrite !filter_cons. by rewrite decide_True, decide_False by done.
  - rewrite !filter_cons. destruct (decide (P z)); simpl; by rewrite IH.
Qed.

Lemma countMarks_insert (l : list jsval) i p :
  l !! i = Some Null → countMarks (<[i:=Mark p]> l) = S (countMarks l).
Proof.
  intros Hi. unfold countMarks. by apply (filter_length_insert _ _ _ Null).
Qed.

Lemma sum_list_insert (l : list nat) i x y :
  l !! i = Some x → sum_list (<[i:=y]> l) + x = sum_list l + y.
Proof.
  revert i. induction l as [|z l IH]; intros [|i] Hi; simplify_eq/=.
  - lia.
  - specialize (IH i Hi). lia.
Qed.

Lemma sum_list_bound (l : list nat) k :
  Forall (λ n, n ≤ k) l → sum_list l ≤ k * length l.
Proof.
  induction 1 as [|n l Hn _ IH]; simpl; [lia|]. rewrite Nat.mul_succ_r. lia.
Qed.

Lemma totalMarks_markCell G ctx boardId cellId G' :
  valid_state G →
  markCell G ctx boardId cellId = (G', Ret EndTurn) →
  totalMarks (boards G') = S (totalMarks (boards G)).
Proof.
  intros Hv Hm. destruct (valid_markCell _ _ _ _ _ Hv Hm) as (_ & Hb9 & Hc9).
  pose proof Hm as (b & next & Hvalid & Hb & Hbs & _)%markCell_EndTurn.
  apply (accepted_cell_null G boardId cellId Hv Hc9) in Hvalid
    as (b0 & Hb0 & _ & Hcell).
  assert (b0 = b) as -> by congruence.
  destruct Hv as [Hlen Hall].
  assert (length (cells b) = 9) as Hcells
    by (apply vb_length; by eapply Forall_lookup_1).
  assert ((countMarks ∘ cells) (markedBoard (currentPlayer ctx) cellId b)
          = S (countMarks (cells b))) as Hone.
  { unfold compose. rewrite cells_markedBoard, js_set_in_range by lia.
    by apply countMarks_insert. }
  unfold totalMarks. rewrite Hbs, list_fmap_insert, Hone.
  pose proof (sum_list_insert (countMarks ∘ cells <$> boards G) boardId
                (countMarks (cells b)) (S (countMarks (cells b)))) as Hsum.
  rewrite list_lookup_fmap, Hb in Hsum. specialize (Hsum eq_refl). lia.
Qed.

(** X10: a move that [markCell] carries out on a state of the data model
    puts exactly one mark more on the boards. *)
Theorem markCell_one_more_mark G ctx boardId cellId G' :
  valid_state G →
  markCell G ctx boardId cellId = (G', Ret EndTurn) →
  totalMarks (boards G') = S (totalMarks (boards G)).
Proof. apply totalMarks_markCell. Qed.

Lemma markCell_one_more_mark_witness :
  valid_state (stG almostWonState)
  ∧ markCell (stG almostWonState) (stCtx almostWonState) 2 8
    = (stG wonState, Ret EndTurn)
  ∧ totalMarks (boards (stG wonState))
    = S (totalMarks (boards (stG almostWonState))).
Proof.
  pose proof (reachable_valid _ reachable_almostWonState) as Hv.
  assert (markCell (stG almostWonState) (stCtx almostWonState) 2 8
          = (stG wonState, Ret EndTurn)) as Hm by reflexivity.
  split; [exact Hv|]. split; [exact Hm|].
  exact (markCell_one_more_mark _ _ 2 8 _ Hv Hm).
Defined.

Lemma totalMarks_valid_bound G : valid_state G → totalMarks (boards G) ≤ 81.
Proof.
  intros [Hlen Hall]. unfold totalMarks.
  pose proof (sum_list_bound (countMarks ∘ cells <$> boards G) 9) as Hb.
  rewrite length_fmap, Hlen in Hb. apply Hb. rewrite Forall_fmap.
  eapply Forall_impl; [exact Hall|]. intros b [Hl _ _ _]. unfold compose.
  unfold countMarks. rewrite <-Hl. apply length_filter.
Qed.

Lemma play_marks st moves st' :
  valid_state (stG st) → play st moves = Some st' →
  valid_state (stG st')
  ∧ totalMarks (boards (stG st')) = totalMarks (boards (stG st)) + length moves.
Proof.
  revert st. induction moves as [|[boardId cellId] moves IH]; simpl;
    intros st Hv.
  - intros [= <-]. split; [done|lia].
  - destruct (applyMove st boardId cellId) as [st1 []] eqn:Hmove; [|done..].
    intros Hplay.
    pose proof (valid_applyMove _ _ _ _ Hv Hmove) as Hv1.
    apply applyMove_Applied in Hmove as (_ & Hm & _).
    pose proof (totalMarks_markCell _ _ _ _ _ Hv Hm) as Hone.
    destruct (IH st1 Hv1 Hplay) as [Hv' Hcount]. split; [done|]. lia.
Qed.

(** X11: a match is at most 81 moves long: when a sequence of moves is
    played from the initial state, every one of them applied, there are as
    many marks on the boards as moves were played, and no more than 81. *)
Theorem play_at_most_81_moves moves st :
  play initial moves = Some st →
  totalMarks (boards (stG st)) = length moves ∧ length moves ≤ 81.
Proof.
  intros Hplay.
  destruct (play_marks initial moves st valid_setup Hplay) as [Hv Hcount].
  pose proof (totalMarks_valid_bound _ Hv) as Hb.
  change (totalMarks (boards (stG initial))) with 0 in Hcount. lia.
Qed.

Lemma play_at_most_81_moves_witness :
  play initial drawnBoardGame = Some drawnBoardState
  ∧ totalMarks (boards (stG drawnBoardState)) = length drawnBoardGame
  ∧ length drawnBoardGame ≤ 81.
Proof.
  assert (play initial drawnBoardGame = Some drawnBoardState) as H
    by reflexivity.
  split; [exact H|]. exact (play_at_most_81_moves _ _ H).
Defined.

(** ** Who has won *)

Lemma valid_meta G :
  valid_state G →
  length (boardsToCells (boards G)) = 9
  ∧ Forall (λ v, v ≠ Undefined) (boardsToCells (boards G)).
Proof.
  intros [Hlen Hall]. unfold boardsToCells. split; [by rewrite length_fmap|].
  rewrite Forall_fmap. eapply Forall_impl; [exact Hall|].
  intros b Hb. apply (vb_winner b Hb).
Qed.

(** The line that a move makes on the meta-grid is a line of the player of
    the move. *)
Lemma meta_line_owner G ctx boardId cellId G' :
  valid_state G →
  isVictory (boardsToCells (boards G)) = false →
  markCell G ctx boardId cellId = (G', Ret EndTurn) →
  isVictory (boardsToCells (boards G')) = true →
  hasLineOf (currentPlayer ctx) (boardsToCells (boards G')) = true.
Proof.
  intros Hv Hno Hm Hyes.
  destruct (valid_markCell _ _ _ _ _ Hv Hm) as (Hv' & _ & _).
  destruct (valid_meta G Hv) as [Hlen Hdef].
  destruct (valid_meta G' Hv') as [Hlen' Hdef'].
  rewrite isVictory_hasWinningLine in Hno, Hyes by done.
  apply markCell_EndTurn in Hm as (b & next & Hvalid & Hb & Hbs & _).
  apply isValidMove_true in Hvalid as (b0 & Hb0 & Hopen & _).
  assert (b0 = b) as -> by congruence.
  assert (winner b = Null) as Hnull.
  { apply open_board_no_winner; [|done].
    destruct Hv as [_ Hall]. by eapply Forall_lookup_1. }
  unfold boardsToCells in *. rewrite Hbs, list_fmap_insert in *.
  destruct (winner_markedBoard (currentPlayer ctx) cellId b)
    as [Hwin|[_ Hwin]]; rewrite Hwin in *.
  - apply hasWinningLine_hasLineOf in Hyes as [r Hr].
    by pose proof (new_line_owner _ _ _ _ Hno Hr) as ->.
  - rewrite list_insert_id in Hyes by (by rewrite list_lookup_fmap, Hb).
    congruence.
Qed.

(** X12: the player whom [endGameIf] names as the winner is the one who
    holds the line.  When the winners of the boards held no line before a
    move and [endGameIf] reports a winner after it, this winner is
    [ctx.currentPlayer], and three boards on a line are won by that
    player. *)
Theorem endGameIf_winner_holds_line G ctx boardId cellId G' p :
  valid_state G →
  isVictory (boardsToCells (boards G)) = false →
  markCell G ctx boardId cellId = (G', Ret EndTurn) →
  endGameIf G' ctx = Some (Winner p) →
  p = currentPlayer ctx ∧ hasLineOf p (boardsToCells (boards G')) = true.
Proof.
  intros Hv Hno Hm. unfold endGameIf.
  destruct (isVictory (boardsToCells (boards G'))) eqn:Hyes.
  - intros [= <-]. split; [done|].
    exact (meta_line_owner _ _ _ _ _ Hv Hno Hm Hyes).
  - by destruct (_ || _).
Qed.

Lemma endGameIf_winner_holds_line_witness :
  valid_state (stG almostWonState)
  ∧ isVictory (boardsToCells (boards (stG almostWonState))) = false
  ∧ markCell (stG almostWonState) (stCtx almostWonState) 2 8
    = (stG wonState, Ret EndTurn)
  ∧ endGameIf (stG wonState) (stCtx almostWonState) = Some (Winner P0)
  ∧ P0 = currentPlayer (stCtx almostWonState)
  ∧ hasLineOf P0 (boardsToCells (boards (stG wonState))) = true.
Proof.
  pose proof (reachable_valid _ reachable_almostWonState) as Hv.
  assert (isVictory (boardsToCells (boards (stG almostWonState))) = false)
    as Hno by reflexivity.
  assert (markCell (stG almostWonState) (stCtx almostWonState) 2 8
          = (stG wonState, Ret EndTurn)) as Hm by reflexivity.
  assert (endGameIf (stG wonState) (stCtx almostWonState) = Some (Winner P0))
    as He by reflexivity.
  split; [exact Hv|]. split; [exact Hno|]. split; [exact Hm|].
  split; [exact He|].
  exact (endGameIf_winner_holds_line _ _ 2 8 _ P0 Hv Hno Hm He).
Defined.

Lemma reachable_outcome_matches st : reachable st → outcome_matches st.
Proof.
  induction 1 as [|st boardId cellId st' Hst IH Hmove].
  - by split.
  - pose proof (reachable_valid _ Hst) as Hv.
    pose proof (valid_applyMove _ _ _ _ Hv Hmove) as Hv'.
    apply applyMove_Applied in Hmove as (Hover & Hm & Hend & _).
    unfold outcome_matches in *. rewrite Hover in IH. destruct IH as [Hno _].
    rewrite Hend. unfold endGameIf.
    destruct (isVictory (boardsToCells (boards (stG st')))) eqn:Hyes.
    + simpl. exact (meta_line_owner _ _ _ _ _ Hv Hno Hm Hyes).
    + simpl. rewrite (draw_test _ (proj2 Hv')).
      by destruct (allBoardsComplete (boards (stG st'))) eqn:Hall.
Qed.

(** X13: in every state reached by legal moves the outcome agrees with the
    boards: while there is none, the winners of the boards hold no line
    and some board is not complete; a winner holds a line of won boards; a
    draw means no line and all boards complete. *)
Theorem outcome_agrees_with_boards st : reachable st → outcome_matches st.
Proof. apply reachable_outcome_matches. Qed.

Lemma outcome_agrees_with_boards_witness :
  reachable wonState ∧ outcome_matches wonState.
Proof.
  split; [exact reachable_wonState|].
  exact (outcome_agrees_with_boards _ reachable_wonState).
Defined.

(** ** There is a move as long as a board is open *)

Lemma enumerate_filter G ctx :
  length (boards G) = 9 →
  enumerate G ctx
  = Ret (filter (λ m, isValidMove G m.1 m.2 = Ret true) allMoves).
Proof.
  intros Hlen. unfold enumerate. rewrite enumerate_boards_filter; [done|].
  rewrite Forall_forall. intros b Hb%elem_of_seq. lia.
Qed.

(** Where a board is not complete, [isValidMove] accepts some move. *)
Lemma open_move_exists G :
  played_state G → allBoardsComplete (boards G) = false →
  ∃ boardId cellId b,
    boardId < 9 ∧ cellId < 9
    ∧ boards G !! boardId = Some b ∧ complete b = false
    ∧ cells b !! cellId = Some Null
    ∧ (nextBoardId G = None ∨ nextBoardId G = Some boardId).
Proof.
  intros (Hlen & Hall & Hnext) Hopen.
  assert (∃ boardId b, boards G !! boardId = Some b ∧ complete b = false
                       ∧ (nextBoardId G = None ∨ nextBoardId G = Some boardId))
    as (boardId & b & Hb & Hc & Hn).
  { destruct (nextBoardId G) as [n|] eqn:Hn.
    - destruct (Hnext n eq_refl) as (b & Hb & Hc). exists n, b. auto.
    - assert (¬ Forall (λ b, complete b = true) (boards G)) as Hnot.
      { intros H%allBoardsComplete_true. congruence. }
      apply not_Forall_Exists in Hnot; [|apply _].
      apply Exists_exists in Hnot as (b & Hin & Hb).
      apply list_elem_of_lookup_1 in Hin as [i Hi]. exists i, b.
      split; [done|]. split; [|auto]. simpl in Hb. by destruct (complete b). }
  pose proof (Forall_lookup_1 _ _ _ _ Hall Hb) as Hpb.
  destruct (open_board_has_null b Hpb Hc) as [cellId Hcell].
  exists boardId, cellId, b. repeat split; try done.
  - rewrite <-Hlen. by eapply lookup_lt_Some.
  - rewrite <-(vb_length b (pb_valid b Hpb)). by eapply lookup_lt_Some.
Qed.

(** X14: in a state reached by legal moves [enumerate] returns no move
    exactly when all boards are complete. *)
Theorem enumerate_empty_iff st :
  reachable st →
  enumerate (stG st) (stCtx st) = Ret []
  ↔ allBoardsComplete (boards (stG st)) = true.
Proof.
  intros Hp%reachable_played. pose proof Hp as (Hlen & Hall & _).
  rewrite (enumerate_filter _ _ Hlen). split.
  - intros [= Hnil].
    destruct (allBoardsComplete (boards (stG st))) eqn:Hopen; [done|].
    destruct (open_move_exists _ Hp Hopen)
      as (boardId & cellId & b & Hb9 & Hc9 & Hb & Hc & Hcell & Hnext).
    assert ((boardId, cellId)
            ∈ filter (λ m, isValidMove (stG st) m.1 m.2 = Ret true) allMoves)
      as Hin.
    { apply list_elem_of_filter. split; [|by apply elem_of_allMoves].
      simpl. apply isValidMove_true. exists b. repeat split; [done..| |done].
      by rewrite (js_get_lookup _ _ _ Hcell). }
    rewrite Hnil in Hin. by apply elem_of_nil in Hin.
  - intros Hfull%allBoardsComplete_true. f_equal.
    apply length_zero_iff_nil, filter_length_0. rewrite Forall_forall.
    intros [boardId cellId] _ (b & Hb & Hc & _)%isValidMove_true.
    rewrite (Forall_lookup_1 _ _ _ _ Hfull Hb) in Hc. done.
Qed.

Lemma enumerate_empty_iff_witness :
  reachable wonState
  ∧ (enumerate (stG wonState) (stCtx wonState) = Ret []
     ↔ allBoardsComplete (boards (stG wonState)) = true).
Proof.
  split; [exact reachable_wonState|].
  exact (enumerate_empty_iff _ reachable_wonState).
Defined.

(** X15: a match does not get stuck: in a state reached by legal moves in
    which the game is not over, some move is applied. *)
Theorem ongoing_has_move st :
  reachable st → gameover (stCtx st) = None →
  ∃ boardId cellId st', applyMove st boardId cellId = (st', Applied).
Proof.
  intros Hst Hover. pose proof (reachable_outcome_matches st Hst) as Hout.
  unfold outcome_matches in Hout. rewrite Hover in Hout.
  destruct Hout as [_ Hopen]. pose proof (reachable_played st Hst) as Hp.
  destruct (open_move_exists _ Hp Hopen)
    as (boardId & cellId & b & Hb9 & Hc9 & Hb & Hc & Hcell & Hnext).
  exists boardId, cellId. apply legal_applied; [by apply played_valid|].
  repeat split; [done..| |done]. by exists b.
Qed.

Lemma ongoing_has_move_witness :
  reachable drawnBoardState ∧ gameover (stCtx drawnBoardState) = None
  ∧ ∃ boardId cellId st',
      applyMove drawnBoardState boardId cellId = (st', Applied).
Proof.
  split; [exact reachable_drawnBoardState|]. split; [reflexivity|].
  exact (ongoing_has_move _ reachable_drawnBoardState eq_refl).
Defined.

(** X16: when [nextBoardId] is a board, every move that [enumerate]
    returns is on that board. *)
Theorem enumerate_on_next_board G ctx n :
  length (boards G) = 9 → nextBoardId G = Some n →
  ∃ moves,
    enumerate G ctx = Ret moves ∧ ∀ b c, (b, c) ∈ moves → b = n.
Proof.
  intros Hlen Hn. eexists. split; [by apply enumerate_filter|].
  intros b c [(b0 & _ & _ & _ & Hnext)%isValidMove_true _]%list_elem_of_filter.
  simpl in Hnext. destruct Hnext; congruence.
Qed.

Lemma enumerate_on_next_board_witness :
  ∃ moves,
    enumerate (stG selfSendState) (stCtx selfSendState) = Ret moves
    ∧ ∀ b c, (b, c) ∈ moves → b = 0.
Proof.
  exact (enumerate_on_next_board (stG selfSendState) (stCtx selfSendState) 0
           eq_refl eq_refl).
Defined.

(** ** What the board component shows *)

(** X17: on a state of the data model, while the game is not over, the
    cells that the component marks as playable are exactly those that
    [isValidMove] accepts; once the game is over it marks none. *)
Theorem cellIsValidNext_iff G ctx boardId cellId b cell :
  valid_state G →
  boards G !! boardId = Some b → cells b !! cellId = Some cell →
  cellIsValidNext (boardIsValidNext G ctx boardId b) cell = true
  ↔ gameover ctx = None ∧ isValidMove G boardId cellId = Ret true.
Proof.
  intros [_ Hall] Hb Hcell.
  pose proof (Forall_lookup_1 _ _ _ _ Hall Hb) as [_ Hcells _ _].
  pose proof (Forall_lookup_1 _ _ _ _ Hcells Hcell) as Hdef.
  rewrite isValidMove_true. unfold cellIsValidNext, boardIsValidNext, strict_eq.
  rewrite !andb_true_iff, orb_true_iff, negb_true_iff, !bool_decide_eq_true.
  split.
  - intros [[[Hover Hopen] Hnext] Hnull]. subst cell. split; [done|].
    exists b. rewrite (js_get_lookup _ _ _ Hcell).
    repeat split; [done..|]. destruct Hnext as [H|H]; auto.
  - intros [Hover (b0 & Hb0 & Hopen & Hnull & Hnext)].
    assert (b0 = b) as -> by congruence.
    rewrite (js_get_lookup _ _ _ Hcell) in Hnull.
    repeat split; [done..| |by destruct cell].
    destruct Hnext as [H|H]; auto.
Qed.

Lemma cellIsValidNext_iff_witness :
  cellIsValidNext
    (boardIsValidNext (stG selfSendState) (stCtx selfSendState) 0
       (mkBoard [Null; Null; Null; Null; Mark P0; Null; Null; Null; Mark P0]
                false Null))
    Null = true
  ↔ gameover (stCtx selfSendState) = None
    ∧ isValidMove (stG selfSendState) 0 3 = Ret true.
Proof.
  apply (cellIsValidNext_iff (stG selfSendState) (stCtx selfSendState) 0 3).
  - apply reachable_valid.
    by apply (play_reachable initial selfSendGame); [constructor|].
  - reflexivity.
  - reflexivity.
Defined.

(** X18: in a state reached by legal moves, a board that the component
    marks as playable has a cell that it marks as playable. *)
Theorem boardIsValidNext_has_cell st boardId b :
  reachable st → boards (stG st) !! boardId = Some b →
  boardIsValidNext (stG st) (stCtx st) boardId b = true →
  ∃ cellId cell,
    cells b !! cellId = Some cell
    ∧ cellIsValidNext (boardIsValidNext (stG st) (stCtx st) boardId b) cell
      = true.
Proof.
  intros (_ & Hall & _)%reachable_played Hb Hnext.
  pose proof Hnext as [[_ Hopen%negb_true_iff]%andb_true_iff _]%andb_true_iff.
  destruct (open_board_has_null b) as [cellId Hcell];
    [by eapply Forall_lookup_1|done|].
  exists cellId, Null. split; [done|]. unfold cellIsValidNext.
  by rewrite Hnext.
Qed.

Lemma boardIsValidNext_has_cell_witness :
  ∃ cellId cell,
    cells (mkBoard [Null; Null; Null; Null; Mark P0; Null; Null; Null; Mark P0]
                   false Null) !! cellId = Some cell
    ∧ cellIsValidNext
        (boardIsValidNext (stG selfSendState) (stCtx selfSendState) 0
           (mkBoard [Null; Null; Null; Null; Mark P0; Null; Null; Null; Mark P0]
                    false Null)) cell = true.
Proof.
  apply (boardIsValidNext_has_cell selfSendState 0).
  - by apply (play_reachable initial selfSendGame); [constructor|].
  - reflexivity.
  - reflexivity.
Defined.

(** ** The enumerator and the move *)

Lemma markCell_accepts G ctx boardId cellId :
  length (boards G) = 9 → cellId < 9 →
  isValidMove G boardId cellId = Ret true →
  ∃ G', markCell G ctx boardId cellId = (G', Ret EndTurn).
Proof.
  intros Hlen Hc Hvalid.
  pose proof Hvalid as (b & Hb & _)%isValidMove_true.
  rewrite markCell_unfold, Hvalid, Hb. simpl.
  destruct (lookup_lt_is_Some_2
              (<[boardId:=markedBoard (currentPlayer ctx) cellId b]>
                 (boards G)) cellId) as [next ->]; [|by eexists].
  rewrite length_insert. lia.
Qed.

(** X19: the moves that [enumerate] returns are the moves within 0-8 x 0-8
    that [markCell] carries out, for either player: the enumerator never
    proposes a move that would be refused, and misses none. *)
Theorem enumerate_moves_of_markCell G ctx ctx' :
  length (boards G) = 9 →
  ∃ moves,
    enumerate G ctx = Ret moves
    ∧ ∀ b c, (b, c) ∈ moves ↔
             b < 9 ∧ c < 9 ∧ ∃ G', markCell G ctx' b c = (G', Ret EndTurn).
Proof.
  intros Hlen. eexists. split; [by apply enumerate_filter|].
  intros b c. rewrite list_elem_of_filter, elem_of_allMoves. simpl. split.
  - intros (Hvalid & Hb & Hc). repeat split; [done..|].
    by apply markCell_accepts.
  - intros (Hb & Hc & G' & Hm). repeat split; [|done..].
    by apply markCell_EndTurn in Hm as (_ & _ & Hvalid & _).
Qed.

Lemma enumerate_moves_of_markCell_witness :
  ∃ moves,
    enumerate (stG selfSendState) (stCtx selfSendState) = Ret moves
    ∧ ∀ b c, (b, c) ∈ moves ↔
             b < 9 ∧ c < 9
             ∧ ∃ G', markCell (stG selfSendState) (stCtx selfSendState) b c
                     = (G', Ret EndTurn).
Proof.
  exact (enumerate_moves_of_markCell (stG selfSendState)
           (stCtx selfSendState) (stCtx selfSendState) eq_refl).
Defined.
